(** * WordleEnv: a shallow embedding of [wordle_env.py]

    The environment is a Python object whose methods mutate its fields and
    may raise.  It is embedded as a record of the fields together with a
    state-and-exception monad; every method is a computation in that monad.

    Conventions of the embedding:
    - a Python [str] is a Rocq [string]; an [ascii] stands for the code
      point of the same number (0..255), so [ord] is [nat_of_ascii] and
      [str.lower] is the simple case mapping of that range;
    - Python [int]s are [Z]; the rewards, which are an [int] on one path
      and [float] literals on the others, are a two-constructor sum over
      [Z] and the binary64 floats;
    - a Python [list] and a one-dimensional numpy array are Rocq lists,
      indexed as Python does it: negative indices count from the end and
      anything else out of range raises [IndexError];
    - [Counter] is a finite map from characters to [Z] whose lookup
      defaults to 0;
    - console rendering ([render_mode], [_render_frame]) only prints: it
      is kept out of the state of the methods and embedded on its own,
      with the printed lines as its output; the gymnasium space
      descriptors, which are written once at construction and never read
      by [reset] or [step], are left out. *)

From Stdlib Require Import ZArith String Ascii List Lia PrimFloat SpecFloat
  FloatOps.
From stdpp Require Import base decidable option list sorting gmap strings
  pretty.

Local Open Scope Z_scope.

(* The literal -0.1 is read as the nearest binary64 value, as Python does. *)
Set Warnings "-inexact-float".

(** ** Feedback values, exceptions, numbers *)

(** The class constants [EMPTY = 0], [GRAY = 1], [YELLOW = 2], [GREEN = 3]. *)
Inductive mark : Type := EMPTY | GRAY | YELLOW | GREEN.

Definition mark_code (m : mark) : Z :=
  match m with EMPTY => 0 | GRAY => 1 | YELLOW => 2 | GREEN => 3 end.

#[global] Instance mark_eq_dec : EqDecision mark.
Proof. solve_decision. Defined.

Inductive exn : Type := IndexError | ValueError | OverflowError.

Inductive result (A : Type) : Type :=
  | Ok (a : A)
  | Raise (x : exn).
Arguments Ok {A} a.
Arguments Raise {A} x.

(** A reward is the integer [0] or one of the float literals. *)
Inductive number : Type :=
  | PyInt (z : Z)
  | PyFloat (f : float).

(** ** The object state *)

Record WordleEnv : Type := mkEnv {
  word_length : Z;
  max_guesses : Z;
  word_list : list string;
  secret_word : string;
  current_guess_count : Z;
  last_feedback : list mark;
  alphabet_status : list mark;
  guess_history : list string;
  feedback_history : list (list mark)
}.

Definition set_secret_word (w : string) (e : WordleEnv) : WordleEnv :=
  mkEnv (word_length e) (max_guesses e) (word_list e) w
        (current_guess_count e) (last_feedback e) (alphabet_status e)
        (guess_history e) (feedback_history e).

Definition set_current_guess_count (n : Z) (e : WordleEnv) : WordleEnv :=
  mkEnv (word_length e) (max_guesses e) (word_list e) (secret_word e)
        n (last_feedback e) (alphabet_status e)
        (guess_history e) (feedback_history e).

Definition set_last_feedback (f : list mark) (e : WordleEnv) : WordleEnv :=
  mkEnv (word_length e) (max_guesses e) (word_list e) (secret_word e)
        (current_guess_count e) f (alphabet_status e)
        (guess_history e) (feedback_history e).

Definition set_alphabet_status (a : list mark) (e : WordleEnv) : WordleEnv :=
  mkEnv (word_length e) (max_guesses e) (word_list e) (secret_word e)
        (current_guess_count e) (last_feedback e) a
        (guess_history e) (feedback_history e).

Definition set_guess_history (h : list string) (e : WordleEnv) : WordleEnv :=
  mkEnv (word_length e) (max_guesses e) (word_list e) (secret_word e)
        (current_guess_count e) (last_feedback e) (alphabet_status e)
        h (feedback_history e).

Definition set_feedback_history (h : list (list mark)) (e : WordleEnv)
  : WordleEnv :=
  mkEnv (word_length e) (max_guesses e) (word_list e) (secret_word e)
        (current_guess_count e) (last_feedback e) (alphabet_status e)
        (guess_history e) h.

(** ** The monad of methods: state plus exceptions *)

Definition M (A : Type) : Type := WordleEnv → WordleEnv * result A.

#[global] Instance M_ret : MRet M := λ A a e, (e, Ok a).

#[global] Instance M_bind : MBind M := λ A B f m e,
  match m e with
  | (e', Ok a) => f a e'
  | (e', Raise x) => (e', Raise x)
  end.

Definition gets {A} (f : WordleEnv → A) : M A := λ e, (e, Ok (f e)).
Definition modify (f : WordleEnv → WordleEnv) : M unit := λ e, (f e, Ok tt).
Definition lift {A} (r : result A) : M A := λ e, (e, r).

(** [for i in range(...)] with the loop-carried locals as an accumulator. *)
Fixpoint for_each {A} (l : list nat) (body : nat → A → M A) (a : A) : M A :=
  match l with
  | [] => mret a
  | i :: l' => a' ← body i a; for_each l' body a'
  end.

Definition range (n : Z) : list nat := seq 0 (Z.to_nat n).

(** ** Python and numpy primitives *)

Definition chars (s : string) : list ascii := list_ascii_of_string s.

Definition ord (c : ascii) : Z := Z.of_nat (nat_of_ascii c).

(** [len(w)] *)
Definition len (s : string) : Z := Z.of_nat (String.length s).

(** [s[i]] for the non-negative indices a [range] produces. *)
Definition str_getitem (s : string) (i : nat) : result ascii :=
  match chars s !! i with
  | Some c => Ok c
  | None => Raise IndexError
  end.

(** Index normalisation shared by Python lists and numpy arrays. *)
Definition norm_index (n : nat) (i : Z) : option nat :=
  if bool_decide (0 ≤ i < Z.of_nat n) then Some (Z.to_nat i)
  else if bool_decide (- Z.of_nat n ≤ i < 0) then Some (Z.to_nat (i + Z.of_nat n))
  else None.

Definition getitem {A} (l : list A) (i : Z) : result A :=
  match norm_index (length l) i with
  | Some k => match l !! k with Some x => Ok x | None => Raise IndexError end
  | None => Raise IndexError
  end.

Definition setitem {A} (l : list A) (i : Z) (x : A) : result (list A) :=
  match norm_index (length l) i with
  | Some k => Ok (<[k:=x]> l)
  | None => Raise IndexError
  end.

(** [c.lower()] on one code point below 256: the ASCII capitals and the
    Latin-1 capitals U+00C0..U+00DE other than the multiplication sign. *)
Definition lower_char (c : ascii) : ascii :=
  let n := nat_of_ascii c in
  if ((65 <=? n) && (n <=? 90))%nat then ascii_of_nat (n + 32)
  else if ((192 <=? n) && (n <=? 222) && negb (n =? 215))%nat
       then ascii_of_nat (n + 32)
  else c.

Fixpoint lower (s : string) : string :=
  match s with
  | EmptyString => EmptyString
  | String c s' => String (lower_char c) (lower s')
  end.

(** [Counter]: missing keys read as 0. *)
Definition counter_get (m : gmap ascii Z) (c : ascii) : Z :=
  default 0 (m !! c).

Definition Counter (s : string) : gmap ascii Z :=
  fold_left (λ m c, <[c := counter_get m c + 1]> m) (chars s) ∅.

(** [counts[c] -= 1] *)
Definition counter_decr (m : gmap ascii Z) (c : ascii) : gmap ascii Z :=
  <[c := counter_get m c - 1]> m.

(** [sorted(list(set(xs)))]: the set's iteration order is unspecified, the
    sort makes the outcome independent of it. *)
Definition sorted (l : list string) : list string := merge_sort String.le l.

Definition set_to_list (s : gset string) : list string := elements s.

(** ** Methods *)

Definition _letter_to_int (letter : ascii) : Z := ord letter - ord "a"%char.

Record observation : Type := mkObs {
  obs_last_feedback : list mark;
  obs_alphabet_status : list mark;
  obs_guesses_remaining : Z
}.

Record information : Type := mkInfo {
  info_secret_word : string;
  info_guesses_made : Z;
  info_guess_history : list string
}.

Definition _get_obs (e : WordleEnv) : observation :=
  mkObs (last_feedback e) (alphabet_status e)
        (max_guesses e - current_guess_count e).

Definition _get_info (e : WordleEnv) : information :=
  mkInfo (secret_word e) (current_guess_count e) (guess_history e).

(** [np.zeros((n,))] and [np.full((n,), v)] reject a negative dimension. *)
Definition np_full (n : Z) (v : mark) : result (list mark) :=
  if bool_decide (n < 0) then Raise ValueError
  else Ok (replicate (Z.to_nat n) v).

Definition np_zeros (n : Z) : result (list mark) := np_full n EMPTY.

(** [spaces.Discrete(n)] of gymnasium: the count has to be positive, and it
    is stored as a numpy [int64], which a Python integer from 2^63 on does
    not fit.  (The class of the first exception has changed between releases
    of gymnasium; no property below depends on it.) *)
Definition Discrete (n : Z) : result unit :=
  if bool_decide (n ≤ 0) then Raise ValueError
  else if bool_decide (2 ^ 63 ≤ n) then Raise OverflowError
  else Ok tt.

(** [__init__].  Of the spaces it declares, [Discrete(num_words)] gets the
    length of a Python list that the second check has found not empty, and
    the two [Box]es get a shape with [word_length], the length of a word at
    hand by then; [Discrete(max_guesses + 1)] is the one that can fail. *)
Definition __init__ (custom_words : list string) (word_length max_guesses : Z)
  : result WordleEnv :=
  if bool_decide (custom_words = []) then Raise ValueError
  else
    let word_list :=
      sorted (set_to_list (list_to_set
        (lower <$> filter (λ w, len w = word_length) custom_words))) in
    if bool_decide (word_list = []) then Raise ValueError
    else
      match Discrete (max_guesses + 1) with
      | Raise x => Raise x
      | Ok _ =>
        match np_zeros word_length with
        | Raise x => Raise x
        | Ok zeros =>
          Ok (mkEnv word_length max_guesses word_list EmptyString 0
                    zeros (replicate 26 EMPTY) [] [])
        end
      end.

(** [np_random.choice] turns the list into a numpy array of fixed-width
    strings and returns the element at a uniformly drawn position; such an
    array does not keep trailing NUL characters.  The draw is an explicit
    argument; an empty list raises. *)
Fixpoint rstrip_nul (s : string) : string :=
  match s with
  | EmptyString => EmptyString
  | String c s' =>
      match rstrip_nul s' with
      | EmptyString =>
          if Ascii.eqb c Ascii.zero then EmptyString
          else String c EmptyString
      | r => String c r
      end
  end.

Definition choice (l : list string) (draw : nat) : result string :=
  match l !! (draw `mod` length l)%nat with
  | Some w => Ok (rstrip_nul w)
  | None => Raise ValueError
  end.

Definition reset (draw : nat) : M (observation * information) :=
  wl ← gets word_list;
  w ← lift (choice wl draw);
  modify (set_secret_word w);;
  modify (set_current_guess_count 0);;
  L ← gets word_length;
  z ← lift (np_zeros L);
  modify (set_last_feedback z);;
  modify (set_alphabet_status (replicate 26 EMPTY));;
  modify (set_guess_history []);;
  modify (set_feedback_history []);;
  e ← gets id;
  mret (_get_obs e, _get_info e).

(** [self.alphabet_status[i] = v] and [self.alphabet_status[i]]. *)
Definition alphabet_set (i : Z) (v : mark) : M unit :=
  a ← gets alphabet_status;
  a' ← lift (setitem a i v);
  modify (set_alphabet_status a').

Definition alphabet_get (i : Z) : M mark :=
  a ← gets alphabet_status;
  lift (getitem a i).

(** Body of the first loop of [step] (greens). *)
Definition green_body (guess_word : string) (i : nat)
    (st : list mark * gmap ascii Z) : M (list mark * gmap ascii Z) :=
  let '(feedback, secret_counts) := st in
  g ← lift (str_getitem guess_word i);
  secret ← gets secret_word;
  s ← lift (str_getitem secret i);
  if bool_decide (g = s) then
    feedback ← lift (setitem feedback (Z.of_nat i) GREEN);
    let secret_counts := counter_decr secret_counts g in
    alphabet_set (_letter_to_int g) GREEN;;
    mret (feedback, secret_counts)
  else mret (feedback, secret_counts).

(** Body of the second loop of [step] (yellows and grays). *)
Definition yellow_body (guess_word : string) (i : nat)
    (st : list mark * gmap ascii Z) : M (list mark * gmap ascii Z) :=
  let '(feedback, secret_counts) := st in
  f ← lift (getitem feedback (Z.of_nat i));
  if bool_decide (f = GREEN) then mret (feedback, secret_counts)
  else
    letter ← lift (str_getitem guess_word i);
    let lti := _letter_to_int letter in
    secret ← gets secret_word;
    if bool_decide (letter ∈ chars secret)
       && bool_decide (counter_get secret_counts letter > 0)
    then
      feedback ← lift (setitem feedback (Z.of_nat i) YELLOW);
      let secret_counts := counter_decr secret_counts letter in
      s ← alphabet_get lti;
      (if bool_decide (s ≠ GREEN) then alphabet_set lti YELLOW else mret tt);;
      mret (feedback, secret_counts)
    else
      s ← alphabet_get lti;
      (if bool_decide (s = EMPTY) then alphabet_set lti GRAY else mret tt);;
      mret (feedback, secret_counts).

(** The scoring part of [step]: the feedback array, the counter and the two
    loops. *)
Definition scoring (guess_word : string) : M (list mark) :=
  L ← gets word_length;
  feedback ← lift (np_full L GRAY);
  secret_counts ← gets (λ e, Counter (secret_word e));
  '(feedback, secret_counts) ←
    for_each (range L) (green_body guess_word) (feedback, secret_counts);
  '(feedback, secret_counts) ←
    for_each (range L) (yellow_body guess_word) (feedback, secret_counts);
  mret feedback.

Definition step_result : Type :=
  observation * number * bool * bool * information.

Definition step (action : Z) : M step_result :=
  e ← gets id;
  if bool_decide (current_guess_count e >= max_guesses e) then
    mret (_get_obs e, PyInt 0, true, false, _get_info e)
  else
    guess_word ← lift (getitem (word_list e) action);
    modify (λ e, set_current_guess_count (current_guess_count e + 1) e);;
    feedback ← scoring guess_word;
    modify (set_last_feedback feedback);;
    modify (λ e, set_guess_history (guess_history e ++ [guess_word]) e);;
    modify (λ e, set_feedback_history (feedback_history e ++ [feedback]) e);;
    e ← gets id;
    let '(terminated, reward) :=
      if bool_decide (guess_word = secret_word e)
      then (true, PyFloat 1.0%float)
      else if bool_decide (current_guess_count e = max_guesses e)
      then (true, PyFloat (-1.0)%float)
      else (false, PyFloat (-0.1)%float) in
    let truncated := false in
    mret (_get_obs e, reward, terminated, truncated, _get_info e).

(** Running a list of actions, whatever each call returns or raises. *)
Definition run_steps (actions : list Z) (e : WordleEnv) : WordleEnv :=
  fold_left (λ e a, (step a e).1) actions e.

(** ** The scoring rule as the specification words it

    A table of remaining counts, initialised to the occurrences of each
    letter in the secret; a first pass that flags the exact matches and
    decrements their letters; a second pass, left to right over the other
    positions, that spends what is left of a letter's count on yellows. *)

Definition table : Type := ascii → Z.

Definition occurrences (c : ascii) (s : list ascii) : Z :=
  Z.of_nat (length (filter (λ x, x = c) s)).

Definition decrement (t : table) (c : ascii) : table :=
  λ x, if decide (x = c) then t x - 1 else t x.

Fixpoint pass_green (t : table) (guess secret : list ascii)
  : list bool * table :=
  match guess, secret with
  | g :: gs, s :: ss =>
      if decide (g = s)
      then let '(bs, t') := pass_green (decrement t g) gs ss in (true :: bs, t')
      else let '(bs, t') := pass_green t gs ss in (false :: bs, t')
  | _, _ => ([], t)
  end.

Fixpoint pass_rest (t : table) (guess : list ascii) (greens : list bool)
  : list mark :=
  match guess, greens with
  | g :: gs, true :: bs => GREEN :: pass_rest t gs bs
  | g :: gs, false :: bs =>
      if decide (0 < t g)
      then YELLOW :: pass_rest (decrement t g) gs bs
      else GRAY :: pass_rest t gs bs
  | _, _ => []
  end.

Definition two_pass_score (guess secret : string) : list mark :=
  let '(greens, t) :=
    pass_green (λ c, occurrences c (chars secret)) (chars guess) (chars secret)
  in pass_rest t (chars guess) greens.

(** Positions of [guess] that carry [c] and are marked GREEN or YELLOW. *)
Definition is_credit (m : mark) : bool :=
  match m with GREEN | YELLOW => true | _ => false end.

Fixpoint credited (c : ascii) (guess : list ascii) (fb : list mark) : Z :=
  match guess, fb with
  | g :: gs, m :: ms =>
      (if bool_decide (g = c) && is_credit m then 1 else 0) + credited c gs ms
  | _, _ => 0
  end.

(** ** Orderings and state predicates *)

(** The three tiers of the promotion rule. *)
Definition tier (m : mark) : Z :=
  match m with EMPTY => 0 | GRAY | YELLOW => 1 | GREEN => 2 end.

(** One letter's status before and after: never a lower code. *)
Definition promoted (old new : mark) : Prop := mark_code old ≤ mark_code new.

(** Configuration and secret are the same, statuses only went up. *)
Definition same_game (e e' : WordleEnv) : Prop :=
  word_length e' = word_length e ∧ max_guesses e' = max_guesses e ∧
  word_list e' = word_list e ∧ secret_word e' = secret_word e ∧
  Forall2 promoted (alphabet_status e) (alphabet_status e').

(** Nothing but the alphabet statuses differs, and those only went up. *)
Definition touches_status (e e' : WordleEnv) : Prop :=
  e' = set_alphabet_status (alphabet_status e') e ∧
  Forall2 promoted (alphabet_status e) (alphabet_status e').

Definition preserves {A} (R : relation WordleEnv) (m : M A) : Prop :=
  ∀ e, R e (m e).1.

Definition is_lower_letter (c : ascii) : Prop := 97 ≤ ord c ≤ 122.

(** The characters whose index [_letter_to_int] gives is one numpy accepts
    for the 26 statuses, a negative one counting from the end: the code
    points 71 to 122, the lowercase letters among them. *)
Definition status_char (c : ascii) : Prop := -26 ≤ _letter_to_int c < 26.

(** A state inside an episode, whatever the words are made of: the words
    and the secret have the word length, and there are 26 statuses. *)
Definition in_episode (e : WordleEnv) : Prop :=
  Forall (λ w, len w = word_length e) (word_list e) ∧
  len (secret_word e) = word_length e ∧
  length (alphabet_status e) = 26%nat.

(** A vocabulary of lowercase words of the word length. *)
Definition alphabetic (e : WordleEnv) : Prop :=
  Forall (λ w, len w = word_length e ∧ Forall is_lower_letter (chars w))
         (word_list e).

(** A computation whose only exception is [IndexError]. *)
Definition index_errors {A} (m : M A) : Prop :=
  ∀ e e' x, m e = (e', Raise x) → x = IndexError.

(** A state inside an episode over a vocabulary of lowercase words. *)
Definition episode_state (e : WordleEnv) : Prop :=
  Forall (λ w, len w = word_length e ∧ Forall is_lower_letter (chars w))
         (word_list e) ∧
  secret_word e ∈ word_list e ∧
  length (alphabet_status e) = 26%nat.

(** States an owner of the object can observe: after construction and after
    any number of calls, returned or raised. *)
Inductive reachable : WordleEnv → Prop :=
  | reach_init ws L G e : __init__ ws L G = Ok e → reachable e
  | reach_reset e draw : reachable e → reachable (reset draw e).1
  | reach_step e action : reachable e → reachable (step action e).1.

(** ** Auxiliary notions used by the proofs *)

(** A counter and a table of remaining counts hold the same numbers. *)
Definition agrees (cnt : gmap ascii Z) (t : table) : Prop :=
  ∀ c, counter_get cnt c = t c.

(** The mark the first loop leaves at a position. *)
Definition bool_mark (b : bool) : mark := if b then GREEN else GRAY.

(** The three history writes that follow the scoring, then reward and
    termination, then all the ways one call can go. *)
Definition after_scoring (guess : string) (fb : list mark) (e : WordleEnv)
  : WordleEnv :=
  set_feedback_history (feedback_history e ++ [fb])
    (set_guess_history (guess_history e ++ [guess])
       (set_last_feedback fb e)).

Definition verdict (guess : string) (e : WordleEnv) : bool * number :=
  if bool_decide (guess = secret_word e) then (true, PyFloat 1.0%float)
  else if bool_decide (current_guess_count e = max_guesses e)
  then (true, PyFloat (-1.0)%float)
  else (false, PyFloat (-0.1)%float).

Inductive step_outcome (action : Z) (e : WordleEnv)
  : WordleEnv → result step_result → Prop :=
  | step_noop :
      current_guess_count e >= max_guesses e →
      step_outcome action e e
        (Ok (_get_obs e, PyInt 0, true, false, _get_info e))
  | step_bad_action x :
      current_guess_count e < max_guesses e →
      getitem (word_list e) action = Raise x →
      step_outcome action e e (Raise x)
  | step_bad_letter guess e1 x :
      current_guess_count e < max_guesses e →
      getitem (word_list e) action = Ok guess →
      scoring guess (set_current_guess_count (current_guess_count e + 1) e)
      = (e1, Raise x) →
      step_outcome action e e1 (Raise x)
  | step_played guess e1 fb :
      current_guess_count e < max_guesses e →
      getitem (word_list e) action = Ok guess →
      scoring guess (set_current_guess_count (current_guess_count e + 1) e)
      = (e1, Ok fb) →
      let e' := after_scoring guess fb e1 in
      step_outcome action e e'
        (Ok (_get_obs e', (verdict guess e').2, (verdict guess e').1, false,
             _get_info e')).

(** The word list [__init__] computes. *)
Definition vocabulary (custom_words : list string) (L : Z) : list string :=
  sorted (set_to_list (list_to_set
    (lower <$> filter (λ w, len w = L) custom_words))).

(** What construction fixes for the life of the object. *)
Definition configured (e : WordleEnv) : Prop :=
  word_list e ≠ [] ∧ 0 ≤ word_length e ∧
  0 ≤ current_guess_count e ≤ max_guesses e.

(** Letters of either case; [lower] sends them to lowercase letters. *)
Definition is_letter (c : ascii) : Prop :=
  65 ≤ ord c ≤ 90 ∨ 97 ≤ ord c ≤ 122.

(** ** A small vocabulary used in the examples *)

Definition demo_words : list string :=
  ["Crane"; "slate"; "ALLOW"; "lolly"; "ab"; "slate"].

(** The object [WordleEnv(demo_words, 5, 6)] builds. *)
Definition demo_env : WordleEnv :=
  mkEnv 5 6 ["allow"; "crane"; "lolly"; "slate"] EmptyString 0
        (replicate 5 EMPTY) (replicate 26 EMPTY) [] [].

(** After a reset that draws position 0: the secret is "allow". *)
Definition demo_episode : WordleEnv := (reset 0 demo_env).1.

(** The same episode with one guess left. *)
Definition demo_last_turn : WordleEnv :=
  set_current_guess_count 5 demo_episode.

(** A vocabulary with a word that is not made of letters. *)
Definition apostrophe_env : WordleEnv :=
  mkEnv 5 6 ["can't"; "crane"] "crane" 0
        (replicate 5 EMPTY) (replicate 26 EMPTY) [] [].

(** The object [WordleEnv(["crane", "can't", "slate"], 5, 6)] builds, and
    its episodes after a reset that draws position 0, 1 or 2: the secret is
    "can't", "crane" or "slate". *)
Definition apostrophe_words : list string := ["crane"; "can't"; "slate"].

Definition apostrophe_new : WordleEnv :=
  mkEnv 5 6 ["can't"; "crane"; "slate"] EmptyString 0
        (replicate 5 EMPTY) (replicate 26 EMPTY) [] [].

Definition apostrophe_episode (draw : nat) : WordleEnv :=
  (reset draw apostrophe_new).1.

(** ** Notions for the further properties *)

(** The keyboard status of the letter [g] is at least the mark [m]. *)
Definition covered (a : list mark) (g : ascii) (m : mark) : Prop :=
  ∃ s, getitem a (_letter_to_int g) = Ok s ∧ mark_code m ≤ mark_code s.

(** The spaces [__init__] declares for observations: [word_length] marks,
    26 marks, each between 0 and 3, and a count between 0 and
    [max_guesses]. *)
Definition in_observation_space (e : WordleEnv) (obs : observation) : Prop :=
  length (obs_last_feedback obs) = Z.to_nat (word_length e) ∧
  length (obs_alphabet_status obs) = 26%nat ∧
  Forall (λ m, 0 ≤ mark_code m ≤ 3) (obs_last_feedback obs) ∧
  Forall (λ m, 0 ≤ mark_code m ≤ 3) (obs_alphabet_status obs) ∧
  0 ≤ obs_guesses_remaining obs ≤ max_guesses e.

(** How the fields that record the episode hang together. *)
Definition recorded (e : WordleEnv) : Prop :=
  length (last_feedback e) = Z.to_nat (word_length e) ∧
  length (alphabet_status e) = 26%nat ∧
  length (guess_history e) = length (feedback_history e) ∧
  Z.of_nat (length (guess_history e)) ≤ current_guess_count e ∧
  Forall (λ w, w ∈ word_list e ∧
               (Z.to_nat (word_length e) ≤ length (chars w))%nat)
         (guess_history e) ∧
  Forall (λ fb, length fb = Z.to_nat (word_length e) ∧
                Forall (λ m, m ≠ EMPTY) fb)
         (feedback_history e) ∧
  (feedback_history e = [] ∧
   last_feedback e = replicate (Z.to_nat (word_length e)) EMPTY
   ∨ last (feedback_history e) = Some (last_feedback e)).

(** A caller's use of the object: any mix of the two methods, each run to
    its end whether it returns or raises. *)
Inductive call : Type :=
  | Step (action : Z)
  | Reset (draw : nat).

Definition run_call (c : call) (e : WordleEnv) : WordleEnv :=
  match c with
  | Step action => (step action e).1
  | Reset draw => (reset draw e).1
  end.

Definition run_calls (calls : list call) (e : WordleEnv) : WordleEnv :=
  fold_left (λ e c, run_call c e) calls e.

(** An episode state in which every counted guess has been recorded. *)
Definition playing (e : WordleEnv) : Prop :=
  episode_state e ∧
  0 ≤ word_length e ∧
  current_guess_count e = Z.of_nat (length (guess_history e)).

(** [chr]: a code point of the embedding, one beyond it, or [ValueError]
    outside Unicode. *)
Inductive code_point : Type :=
  | Latin1 (c : ascii)
  | Beyond (n : Z).

Definition chr (n : Z) : result code_point :=
  if bool_decide (0 ≤ n < 256) then Ok (Latin1 (ascii_of_nat (Z.to_nat n)))
  else if bool_decide (256 ≤ n < 1114112) then Ok (Beyond n)
  else Raise ValueError.

Definition _int_to_letter (val : Z) : result code_point :=
  chr (val + ord "a"%char).

(** ** Console rendering

    What [_render_frame] passes to [print], call by call.  Printed text is a
    list of code points, since [str.upper] leaves the range of the embedding
    for two characters; a computation that prints carries the lines printed
    so far beside its outcome. *)

Definition text : Type := list Z.

Definition cps (s : string) : text := ord <$> chars s.

Definition W (A : Type) : Type := (list text * result A)%type.

#[global] Instance W_ret : MRet W := λ A a, ([], Ok a).

#[global] Instance W_bind : MBind W := λ A B f m,
  match m with
  | (out, Ok a) => let '(out', r) := f a in (out ++ out', r)
  | (out, Raise x) => (out, Raise x)
  end.

Definition print (t : text) : W unit := ([t], Ok tt).

Definition w_lift {A} (r : result A) : W A := ([], r).

Fixpoint w_for_each {A} (l : list nat) (body : nat → A → W A) (a : A) : W A :=
  match l with
  | [] => mret a
  | i :: l' => a' ← body i a; w_for_each l' body a'
  end.

(** [t * n] on strings: no copies for a negative [n]. *)
Definition text_times (t : text) (n : Z) : text :=
  mjoin (replicate (Z.to_nat n) t).

(** [str.upper] on one character below 256: the ASCII and Latin-1 small
    letters move down by 32, the sharp s becomes "SS", and the micro sign
    and the y with diaeresis get capitals beyond 255. *)
Definition upper_char (c : ascii) : text :=
  let n := ord c in
  if bool_decide (97 ≤ n ≤ 122) then [n - 32]
  else if bool_decide (n = 181) then [924]
  else if bool_decide (n = 223) then [83; 83]
  else if bool_decide (224 ≤ n ≤ 254 ∧ n ≠ 247) then [n - 32]
  else if bool_decide (n = 255) then [376]
  else [n].

(** [upper] of what [_int_to_letter] returns.  The only caller passes 0 to
    25, which stay inside the embedding; a code point beyond it is kept as
    it is. *)
Definition upper (p : code_point) : text :=
  match p with
  | Latin1 c => upper_char c
  | Beyond n => [n]
  end.

Module bcolors.
Definition GREEN : text := cps (String "027" "[92m").
Definition YELLOW : text := cps (String "027" "[93m").
Definition GRAY : text := cps (String "027" "[90m").
Definition ENDC : text := cps (String "027" "[0m").
Definition BOLD : text := cps (String "027" "[1m").
End bcolors.

(** One cell of a guess row: anything not GREEN or YELLOW is shown gray. *)
Definition guess_cell (m : mark) (letter : text) : text :=
  if bool_decide (m = GREEN)
  then bcolors.GREEN ++ letter ++ bcolors.ENDC ++ cps " "
  else if bool_decide (m = YELLOW)
  then bcolors.YELLOW ++ letter ++ bcolors.ENDC ++ cps " "
  else bcolors.GRAY ++ letter ++ bcolors.ENDC ++ cps " ".

(** One cell of the alphabet, with the line break after M. *)
Definition alphabet_cell (status : mark) (letter : text) : text :=
  (if bool_decide (status = GREEN)
   then bcolors.GREEN ++ letter ++ bcolors.ENDC ++ cps " "
   else if bool_decide (status = YELLOW)
   then bcolors.YELLOW ++ letter ++ bcolors.ENDC ++ cps " "
   else if bool_decide (status = GRAY)
   then bcolors.GRAY ++ letter ++ bcolors.ENDC ++ cps " "
   else letter ++ cps " ")
  ++ (if bool_decide (letter = cps "M") then cps (String "010" "") else []).

Definition guess_row_body (e : WordleEnv) (guess : string)
    (feedback : list mark) (j : nat) (render_str : text) : W text :=
  g ← w_lift (str_getitem guess j);
  let letter := upper_char g in
  f ← w_lift (getitem feedback (Z.of_nat j));
  mret (render_str ++ guess_cell f letter).

Definition guess_rows_body (e : WordleEnv) (i : nat) (u : unit) : W unit :=
  guess ← w_lift (getitem (guess_history e) (Z.of_nat i));
  feedback ← w_lift (getitem (feedback_history e) (Z.of_nat i));
  render_str ←
    w_for_each (range (word_length e)) (guess_row_body e guess feedback) [];
  print (cps "  " ++ render_str).

Definition empty_rows_body (e : WordleEnv) (i : nat) (u : unit) : W unit :=
  print (cps "  " ++ text_times (cps "_ ") (word_length e)).

Definition alphabet_body (e : WordleEnv) (i : nat) (alphabet_render : text)
  : W text :=
  p ← w_lift (_int_to_letter (Z.of_nat i));
  let letter := upper p in
  status ← w_lift (getitem (alphabet_status e) (Z.of_nat i));
  mret (alphabet_render ++ alphabet_cell status letter).

Definition _render_frame (e : WordleEnv) : W unit :=
  print (cps (String "010" "") ++ text_times (cps "=") 30);;
  print (cps "Guess " ++ cps (pretty (current_guess_count e))
         ++ cps " of " ++ cps (pretty (max_guesses e)));;
  print (text_times (cps "-") 30);;
  w_for_each (range (Z.of_nat (length (guess_history e))))
             (guess_rows_body e) tt;;
  w_for_each (range (max_guesses e - Z.of_nat (length (guess_history e))))
             (empty_rows_body e) tt;;
  print (text_times (cps "-") 30);;
  print (cps "Alphabet Status:");;
  alphabet_render ← w_for_each (range 26) (alphabet_body e) [];
  print alphabet_render;;
  print (text_times (cps "=") 30).

(** [render]: only the "human" mode prints. *)
Definition render (human : bool) (e : WordleEnv) : W unit :=
  if human then _render_frame e else mret tt.

Definition demo_played : WordleEnv := run_steps [2; 1] demo_episode.

(** ** The evaluation loop of [ai.py]

    The script switches the object to "human" mode, so [reset] and [step]
    end with a call of [_render_frame]: what it prints is not kept here, a
    raise would be.  The trained model is a function from observations to
    action indices; the script's own prints are left out. *)

Definition render_frame_quiet : M unit :=
  e ← gets id; lift (_render_frame e).2.

Definition reset_human (draw : nat) : M (observation * information) :=
  res ← reset draw;
  render_frame_quiet;;
  mret res.

(** [step] in "human" mode: the early return of the guard comes before the
    rendering. *)
Definition step_human (action : Z) : M step_result :=
  e ← gets id;
  if bool_decide (current_guess_count e >= max_guesses e) then step action
  else
    res ← step action;
    render_frame_quiet;;
    mret res.

(** [float(z)], rounded to nearest; Python raises where this overflows. *)
Definition float_of_int (z : Z) : float :=
  SF2Prim (binary_normalize prec emax z 0 false).

(** [a + b] and [r == 1.0] on numbers. *)
Definition number_add (a b : number) : number :=
  match a, b with
  | PyInt x, PyInt y => PyInt (x + y)
  | PyInt x, PyFloat g => PyFloat (float_of_int x + g)%float
  | PyFloat f, PyInt y => PyFloat (f + float_of_int y)%float
  | PyFloat f, PyFloat g => PyFloat (f + g)%float
  end.

Definition is_one (r : number) : bool :=
  match r with
  | PyInt z => bool_decide (z = 1)
  | PyFloat f => PrimFloat.eqb f 1.0%float
  end.

Record tally : Type := mkTally {
  total_wins : Z;
  total_guesses_in_wins : Z
}.

Record loop_vars : Type := mkVars {
  v_obs : observation;
  v_terminated : bool;
  v_truncated : bool;
  v_episode_reward : number;
  v_num_guesses : Z;
  v_tally : tally
}.

(** [while not terminated and not truncated: ...]; [None] stands for a loop
    still running when the fuel is spent. *)
Fixpoint guess_loop (predict : observation → Z) (fuel : nat) (v : loop_vars)
  : M (option loop_vars) :=
  if negb (v_terminated v) && negb (v_truncated v) then
    match fuel with
    | O => mret None
    | S fuel' =>
        let action := predict (v_obs v) in
        '(obs, reward, terminated, truncated, info) ← step_human action;
        let episode_reward := number_add (v_episode_reward v) reward in
        let num_guesses := v_num_guesses v + 1 in
        let t :=
          if (terminated : bool) then
            if is_one reward
            then mkTally (total_wins (v_tally v) + 1)
                         (total_guesses_in_wins (v_tally v) + num_guesses)
            else v_tally v
          else v_tally v in
        guess_loop predict fuel'
          (mkVars obs terminated truncated episode_reward num_guesses t)
    end
  else mret (Some v).

(** One pass of [for i in range(num_episodes)]. *)
Definition play_episode (predict : observation → Z) (fuel : nat)
    (draw : nat) (t : tally) : M (option loop_vars) :=
  '(obs, info) ← reset_human draw;
  guess_loop predict fuel (mkVars obs false false (PyInt 0) 0 t).

(** The whole loop, one draw of the generator per episode. *)
Fixpoint evaluate (predict : observation → Z) (fuel : nat)
    (draws : list nat) (t : tally) : M (option tally) :=
  match draws with
  | [] => mret (Some t)
  | draw :: draws' =>
      r ← play_episode predict fuel draw t;
      match r with
      | None => mret None
      | Some v => evaluate predict fuel draws' (v_tally v)
      end
  end.

(** How an episode of the evaluation loop can end: won on the guess just
    recorded, with the tally raised, or out of guesses with the secret never
    guessed and the tally as it was. *)
Definition episode_outcome (t : tally) (e' : WordleEnv) (v : loop_vars)
  : Prop :=
  v_terminated v = true ∧ v_truncated v = false ∧
  ((∃ h, guess_history e' = h ++ [secret_word e'] ∧
         (secret_word e' ∉ h) ∧
         v_num_guesses v = Z.of_nat (length h) + 1 ∧
         v_tally v = mkTally (total_wins t + 1)
                             (total_guesses_in_wins t + v_num_guesses v))
   ∨ ((secret_word e' ∉ guess_history e') ∧
      Z.of_nat (length (guess_history e')) = max_guesses e' ∧
      v_tally v = t)).


(** * Properties *)

(** ** The monad *)

Lemma bind_ok {A B} (m : M A) (f : A → M B) e e' a :
  m e = (e', Ok a) → (m ≫= f) e = f a e'.
Proof. intros H. unfold mbind, M_bind. by rewrite H. Qed.

Lemma bind_raise {A B} (m : M A) (f : A → M B) e e' x :
  m e = (e', Raise x) → (m ≫= f) e = (e', Raise x).
Proof. intros H. unfold mbind, M_bind. by rewrite H. Qed.

Section preserves.
Context (R : relation WordleEnv) `{!PreOrder R}.

Lemma preserves_ret {A} (a : A) : preserves R (mret a).
Proof. intros e. reflexivity. Qed.

Lemma preserves_gets {A} (f : WordleEnv → A) : preserves R (gets f).
Proof. intros e. reflexivity. Qed.

Lemma preserves_lift {A} (r : result A) : preserves R (lift r).
Proof. intros e. reflexivity. Qed.

Lemma preserves_modify f : (∀ e, R e (f e)) → preserves R (modify f).
Proof. intros H e. apply H. Qed.

Lemma preserves_bind {A B} (m : M A) (f : A → M B) :
  preserves R m → (∀ a, preserves R (f a)) → preserves R (m ≫= f).
Proof.
  intros Hm Hf e. unfold mbind, M_bind.
  specialize (Hm e). destruct (m e) as [e1 [a|x]]; simpl in *; [|done].
  etrans; [exact Hm|apply Hf].
Qed.

Lemma preserves_for_each {A} (body : nat → A → M A) l :
  (∀ i a, preserves R (body i a)) → ∀ a, preserves R (for_each l body a).
Proof.
  intros Hb. induction l as [|i l IH]; intros a; simpl.
  - apply preserves_ret.
  - apply preserves_bind; auto.
Qed.
End preserves.

(** Walking through a method one bind at a time. *)
Ltac frame_leaf :=
  first [ apply preserves_ret; apply _
        | apply preserves_gets; apply _
        | apply preserves_lift; apply _ ].

Ltac frame_bind := apply preserves_bind; [apply _|try frame_leaf|intros ?].

Tactic Notation "frame_bind" "as" simple_intropattern(p) :=
  apply preserves_bind; [apply _|try frame_leaf|intros p].

(** ** Promotion of statuses *)

Lemma promoted_refl m : promoted m m.
Proof. unfold promoted. lia. Qed.

Lemma promoted_trans a b c : promoted a b → promoted b c → promoted a c.
Proof. unfold promoted. lia. Qed.

Lemma promoted_green m : promoted m GREEN.
Proof. destruct m; unfold promoted; simpl; lia. Qed.

Lemma promoted_facts old new :
  promoted old new →
  tier old ≤ tier new ∧
  (old = GREEN → new = GREEN) ∧
  (old = YELLOW → new ≠ GRAY ∧ new ≠ EMPTY) ∧
  (new = GRAY → old = EMPTY ∨ old = GRAY).
Proof.
  unfold promoted. destruct old, new; simpl; intros H;
    repeat split; intros; try discriminate; try lia; auto.
Qed.

Lemma Forall2_promoted_refl (l : list mark) : Forall2 promoted l l.
Proof. induction l; constructor; auto using promoted_refl. Qed.

Lemma Forall2_promoted_trans (l1 l2 l3 : list mark) :
  Forall2 promoted l1 l2 → Forall2 promoted l2 l3 → Forall2 promoted l1 l3.
Proof.
  intros H. revert l3. induction H; intros l3 H3; inversion H3; subst;
    constructor; eauto using promoted_trans.
Qed.

Lemma insert_promoted (l : list mark) k v :
  (∀ x, l !! k = Some x → promoted x v) → Forall2 promoted l (<[k:=v]> l).
Proof.
  revert k. induction l as [|m l IH]; intros k H; [constructor|].
  destruct k as [|k]; simpl.
  - constructor; [apply H; reflexivity|apply Forall2_promoted_refl].
  - constructor; [apply promoted_refl|apply IH; intros x Hx; apply H, Hx].
Qed.

Lemma same_game_preorder : PreOrder same_game.
Proof.
  split.
  - intros e. unfold same_game. auto using Forall2_promoted_refl.
  - intros e1 e2 e3 (?&?&?&?&?) (?&?&?&?&?). unfold same_game.
    repeat split; try congruence. eauto using Forall2_promoted_trans.
Qed.

Lemma touches_status_preorder : PreOrder touches_status.
Proof.
  split.
  - intros e. split; [by destruct e|apply Forall2_promoted_refl].
  - intros e1 e2 e3 [H12 ?] [H23 ?]. split.
    + rewrite H23, H12. reflexivity.
    + eauto using Forall2_promoted_trans.
Qed.

#[local] Existing Instance same_game_preorder.
#[local] Existing Instance touches_status_preorder.

Lemma touches_status_same_game e e' : touches_status e e' → same_game e e'.
Proof. intros [-> H]. unfold same_game. simpl. auto. Qed.

Lemma touches_status_set e a :
  Forall2 promoted (alphabet_status e) a →
  touches_status e (set_alphabet_status a e).
Proof. intros H. split; [reflexivity|exact H]. Qed.

(** ** Index arithmetic *)

Lemma norm_index_lt n i k : norm_index n i = Some k → (k < n)%nat.
Proof.
  unfold norm_index. repeat case_bool_decide; intros; simplify_eq; lia.
Qed.

Lemma norm_index_nat n (k : nat) :
  (k < n)%nat → norm_index n (Z.of_nat k) = Some k.
Proof.
  intros H. unfold norm_index. rewrite bool_decide_eq_true_2 by lia.
  by rewrite Nat2Z.id.
Qed.

Lemma getitem_nat {A} (l : list A) (k : nat) x :
  l !! k = Some x → getitem l (Z.of_nat k) = Ok x.
Proof.
  intros H. unfold getitem.
  rewrite norm_index_nat by (eapply lookup_lt_Some; eauto). by rewrite H.
Qed.

Lemma setitem_nat {A} (l : list A) (k : nat) x :
  (k < length l)%nat → setitem l (Z.of_nat k) x = Ok (<[k:=x]> l).
Proof. intros H. unfold setitem. by rewrite norm_index_nat. Qed.

Lemma getitem_Ok {A} (l : list A) i x :
  getitem l i = Ok x → ∃ k, norm_index (length l) i = Some k ∧ l !! k = Some x.
Proof.
  unfold getitem. destruct (norm_index _ _) as [k|]; [|done].
  destruct (l !! k) eqn:E; [|done]. intros [= ->]. eauto.
Qed.

(** ** What the status updates of the two loops do to the object *)

Lemma alphabet_set_green i : preserves touches_status (alphabet_set i GREEN).
Proof.
  intros e. unfold alphabet_set, mbind, M_bind, gets, lift, modify, setitem.
  simpl. destruct (norm_index _ _) as [k|]; simpl; [|reflexivity].
  apply touches_status_set, insert_promoted. intros; apply promoted_green.
Qed.

Lemma alphabet_update_guarded {A} i (guard : mark → bool) v (k : M A) :
  (∀ s, guard s = true → promoted s v) →
  preserves touches_status k →
  preserves touches_status
    (s ← alphabet_get i; (if guard s then alphabet_set i v else mret tt);; k).
Proof.
  intros Hg Hk e.
  unfold alphabet_get, alphabet_set, mbind, M_bind, gets, lift, modify. simpl.
  destruct (getitem (alphabet_status e) i) as [s|x] eqn:E; simpl; [|reflexivity].
  destruct (guard s) eqn:G; simpl; [|apply Hk].
  apply getitem_Ok in E as (j & Hj & Hs). unfold setitem. rewrite Hj. simpl.
  specialize (Hk (set_alphabet_status (<[j:=v]> (alphabet_status e)) e)).
  destruct (k _) as [e2 r]. simpl in *.
  assert (touches_status e e2) as H; [|by destruct r].
  etrans; [|exact Hk].
  apply touches_status_set, insert_promoted.
  intros y Hy. rewrite Hs in Hy. injection Hy as <-. auto.
Qed.

Lemma green_body_touches guess i st :
  preserves touches_status (green_body guess i st).
Proof.
  destruct st as [fb cnt]. unfold green_body. do 3 frame_bind.
  case_bool_decide; [|frame_leaf].
  frame_bind. frame_bind; [apply alphabet_set_green|]. frame_leaf.
Qed.

Lemma yellow_body_touches guess i st :
  preserves touches_status (yellow_body guess i st).
Proof.
  destruct st as [fb cnt]. unfold yellow_body. frame_bind.
  case_bool_decide; [frame_leaf|]. do 2 frame_bind.
  destruct (_ && _).
  - frame_bind.
    apply (alphabet_update_guarded _ (λ s, bool_decide (s ≠ GREEN)));
      [|frame_leaf].
    intros s Hs%bool_decide_eq_true.
    destruct s; unfold promoted; simpl; try lia; done.
  - apply (alphabet_update_guarded _ (λ s, bool_decide (s = EMPTY)));
      [|frame_leaf].
    intros s ->%bool_decide_eq_true. unfold promoted; simpl; lia.
Qed.

Lemma scoring_touches guess : preserves touches_status (scoring guess).
Proof.
  unfold scoring. do 3 frame_bind.
  frame_bind as [fb1 cnt1].
  { apply preserves_for_each; [apply _|]. intros; apply green_body_touches. }
  frame_bind as [fb2 cnt2].
  { apply preserves_for_each; [apply _|]. intros; apply yellow_body_touches. }
  frame_leaf.
Qed.

Lemma preserves_weaken {A} (R R' : relation WordleEnv) (m : M A) :
  (∀ e e', R e e' → R' e e') → preserves R m → preserves R' m.
Proof. intros H Hm e. apply H, Hm. Qed.

Lemma same_game_setter (f : WordleEnv → WordleEnv) :
  (∀ e, word_length (f e) = word_length e ∧ max_guesses (f e) = max_guesses e ∧
        word_list (f e) = word_list e ∧ secret_word (f e) = secret_word e ∧
        alphabet_status (f e) = alphabet_status e) →
  preserves same_game (modify f).
Proof.
  intros H e. destruct (H e) as (?&?&?&?&Ha). unfold same_game, modify. simpl.
  rewrite Ha. auto using Forall2_promoted_refl.
Qed.

Lemma step_same_game action : preserves same_game (step action).
Proof.
  unfold step. frame_bind.
  case_bool_decide; [frame_leaf|]. frame_bind.
  frame_bind; [by apply same_game_setter|].
  frame_bind.
  { eapply preserves_weaken; [apply touches_status_same_game|].
    apply scoring_touches. }
  do 3 (frame_bind; [by apply same_game_setter|]).
  frame_bind. destruct (if bool_decide _ then _ else _) as [t r].
  frame_leaf.
Qed.

Lemma run_steps_same_game actions e : same_game e (run_steps actions e).
Proof.
  revert e. induction actions as [|a l IH]; intros e; simpl; [reflexivity|].
  etrans; [apply (step_same_game a e)|apply IH].
Qed.

(** ** Counters against occurrence tables *)

Lemma counter_get_insert (m : gmap ascii Z) x v c :
  counter_get (<[x:=v]> m) c = if decide (x = c) then v else counter_get m c.
Proof.
  unfold counter_get. rewrite lookup_insert. by destruct (decide (x = c)).
Qed.

Lemma occurrences_cons c x l :
  occurrences c (x :: l) = (if decide (x = c) then 1 else 0) + occurrences c l.
Proof.
  unfold occurrences. rewrite filter_cons.
  destruct (decide (x = c)); simpl length; lia.
Qed.

Lemma occurrences_nonneg c l : 0 ≤ occurrences c l.
Proof. unfold occurrences. lia. Qed.

Lemma occurrences_pos_elem c l : 0 < occurrences c l → c ∈ l.
Proof.
  induction l as [|x l IH]; [unfold occurrences; simpl; lia|].
  rewrite occurrences_cons. destruct (decide (x = c)) as [->|].
  - intros _. by left.
  - intros H. right. apply IH. lia.
Qed.

Lemma Counter_occurrences s : agrees (Counter s) (λ c, occurrences c (chars s)).
Proof.
  intros c. unfold Counter.
  assert (∀ l (m : gmap ascii Z),
    counter_get (fold_left (λ m c, <[c := counter_get m c + 1]> m) l m) c
    = counter_get m c + occurrences c l) as H.
  { induction l as [|x l IH]; intros m; simpl.
    - unfold occurrences. simpl. lia.
    - rewrite IH, counter_get_insert, occurrences_cons.
      destruct (decide (x = c)); subst; lia. }
  rewrite H. unfold counter_get. rewrite lookup_empty. simpl. lia.
Qed.

Lemma agrees_decr cnt t g :
  agrees cnt t → agrees (counter_decr cnt g) (decrement t g).
Proof.
  intros H c. unfold counter_decr, decrement. rewrite counter_get_insert.
  destruct (decide (g = c)), (decide (c = g)); subst; try done.
  by rewrite H.
Qed.

(** ** Running the primitives *)

Lemma length_chars s : length (chars s) = String.length s.
Proof. unfold chars. induction s; simpl; auto. Qed.

Lemma str_getitem_middle w (pre post : list ascii) c :
  chars w = pre ++ c :: post → str_getitem w (length pre) = Ok c.
Proof.
  intros H. unfold str_getitem. by rewrite H, list_lookup_middle.
Qed.

Lemma status_char_index c :
  status_char c ↔ ∃ k, norm_index 26 (_letter_to_int c) = Some k.
Proof.
  unfold status_char, norm_index. change (Z.of_nat 26) with 26.
  repeat case_bool_decide; split; intros Hc; eauto; try lia.
  by destruct Hc.
Qed.

Lemma lower_letter_status_char c : is_lower_letter c → status_char c.
Proof.
  unfold is_lower_letter, status_char, _letter_to_int.
  change (ord "a") with 97. lia.
Qed.

Lemma alphabet_set_ok e i v k :
  norm_index (length (alphabet_status e)) i = Some k →
  alphabet_set i v e
  = (set_alphabet_status (<[k:=v]> (alphabet_status e)) e, Ok tt).
Proof.
  intros H. unfold alphabet_set, mbind, M_bind, gets, lift, modify, setitem.
  by rewrite H.
Qed.

Lemma alphabet_get_ok e i k :
  norm_index (length (alphabet_status e)) i = Some k →
  ∃ s, alphabet_get i e = (e, Ok s).
Proof.
  intros H. unfold alphabet_get, mbind, M_bind, gets, lift, getitem.
  rewrite H. simpl. apply norm_index_lt, lookup_lt_is_Some in H as [s ->].
  eauto.
Qed.


(** ** The first loop computes [pass_green] *)

Lemma pass_green_cons t g gs s ss :
  pass_green t (g :: gs) (s :: ss)
  = if decide (g = s)
    then (true :: (pass_green (decrement t g) gs ss).1,
          (pass_green (decrement t g) gs ss).2)
    else (false :: (pass_green t gs ss).1, (pass_green t gs ss).2).
Proof.
  simpl. destruct (decide (g = s)); by destruct (pass_green _ gs ss).
Qed.

Lemma touches_status_secret e e' :
  touches_status e e' →
  secret_word e' = secret_word e ∧
  length (alphabet_status e') = length (alphabet_status e).
Proof.
  intros [-> H]. split; [reflexivity|]. simpl. symmetry.
  eapply Forall2_length, H.
Qed.

Lemma green_body_run guess i fb cnt e g s :
  str_getitem guess i = Ok g →
  str_getitem (secret_word e) i = Ok s →
  (i < length fb)%nat →
  status_char g →
  length (alphabet_status e) = 26%nat →
  ∃ e', green_body guess i (fb, cnt) e
        = (e', Ok (if decide (g = s)
                   then (<[i:=GREEN]> fb, counter_decr cnt g)
                   else (fb, cnt))) ∧
        touches_status e e'.
Proof.
  intros Eg Es Hi Hg Ha.
  pose proof (green_body_touches guess i (fb, cnt) e) as HT.
  apply status_char_index in Hg as [j Hj].
  revert HT. unfold green_body, mbind, M_bind, lift, gets.
  rewrite Eg, Es. destruct (decide (g = s)) as [->|Hne].
  - rewrite bool_decide_eq_true_2 by done.
    rewrite setitem_nat by done.
    erewrite alphabet_set_ok by (rewrite Ha; exact Hj).
    simpl. eauto.
  - rewrite bool_decide_eq_false_2 by done. simpl. eauto.
Qed.

Lemma green_loop guess gs : ∀ ss gp sp fbp t cnt e,
  length gs = length ss →
  chars guess = gp ++ gs →
  chars (secret_word e) = sp ++ ss →
  length sp = length gp →
  length fbp = length gp →
  Forall status_char gs →
  length (alphabet_status e) = 26%nat →
  agrees cnt t →
  ∃ e' cnt',
    for_each (seq (length gp) (length gs)) (green_body guess)
             (fbp ++ replicate (length gs) GRAY, cnt) e
    = (e', Ok (fbp ++ (bool_mark <$> (pass_green t gs ss).1), cnt')) ∧
    agrees cnt' (pass_green t gs ss).2.
Proof.
  induction gs as [|g gs IH]; intros ss gp sp fbp t cnt e Hlen Hg Hs Hsp Hfb
    Hlow Ha Hcnt; destruct ss as [|s ss]; try discriminate Hlen.
  { simpl. eauto. }
  injection Hlen as Hlen. apply Forall_cons in Hlow as [Hlg Hlow].
  rewrite pass_green_cons.
  cbn [length seq for_each].
  destruct (green_body_run guess (length gp)
              (fbp ++ replicate (S (length gs)) GRAY) cnt e g s)
    as (e1 & E1 & [Hsec Hal]%touches_status_secret); auto.
  { eapply str_getitem_middle; eauto. }
  { rewrite <- Hsp. eapply str_getitem_middle; eauto. }
  { rewrite length_app. simpl. lia. }
  erewrite bind_ok by exact E1. clear E1.
  assert (S (length gp) = length (gp ++ [g])) as Hk
    by (rewrite length_app; simpl; lia).
  rewrite Hk. simpl replicate.
  assert (<[length gp:=GREEN]> (fbp ++ GRAY :: replicate (length gs) GRAY)
          = fbp ++ GREEN :: replicate (length gs) GRAY) as ->
    by (rewrite <- Hfb, insert_app_r_alt, Nat.sub_diag by lia; done).
  destruct (decide (g = s)) as [->|Hne].
  - destruct (IH ss (gp ++ [s]) (sp ++ [s]) (fbp ++ [GREEN])
                (decrement t s) (counter_decr cnt s) e1)
      as (e' & cnt' & E & Hag); auto using agrees_decr.
    + by rewrite <- app_assoc.
    + rewrite Hsec. by rewrite <- app_assoc.
    + rewrite !length_app. simpl. lia.
    + rewrite !length_app. simpl. lia.
    + congruence.
    + exists e', cnt'. split; [|exact Hag].
      rewrite <- app_assoc in E. simpl in E. rewrite E.
      by rewrite <- app_assoc.
  - destruct (IH ss (gp ++ [g]) (sp ++ [s]) (fbp ++ [GRAY]) t cnt e1)
      as (e' & cnt' & E & Hag); auto.
    + by rewrite <- app_assoc.
    + rewrite Hsec. by rewrite <- app_assoc.
    + rewrite !length_app. simpl. lia.
    + rewrite !length_app. simpl. lia.
    + congruence.
    + exists e', cnt'. split; [|exact Hag].
      rewrite <- app_assoc in E. simpl in E. rewrite E.
      by rewrite <- app_assoc.
Qed.

(** ** The second loop computes [pass_rest] *)

Lemma alphabet_update_ok {A} i (guard : mark → bool) v (a : A) e k :
  norm_index (length (alphabet_status e)) i = Some k →
  ∃ e', (s ← alphabet_get i;
         (if guard s then alphabet_set i v else mret tt);; mret a) e
        = (e', Ok a).
Proof.
  intros Hk. destruct (alphabet_get_ok e i k Hk) as [s Es].
  erewrite bind_ok by exact Es. destruct (guard s).
  - erewrite bind_ok by (by apply alphabet_set_ok). eauto.
  - eauto.
Qed.

Lemma yellow_body_run guess i fb cnt t e b g :
  fb !! i = Some (bool_mark b) →
  str_getitem guess i = Ok g →
  status_char g →
  length (alphabet_status e) = 26%nat →
  agrees cnt t →
  (∀ c, t c ≤ occurrences c (chars (secret_word e))) →
  ∃ e', yellow_body guess i (fb, cnt) e
        = (e', Ok (if b then (fb, cnt)
                   else if decide (0 < t g)
                        then (<[i:=YELLOW]> fb, counter_decr cnt g)
                        else (fb, cnt))) ∧
        touches_status e e'.
Proof.
  intros Hf Eg Hg Ha Hag Hle.
  pose proof (yellow_body_touches guess i (fb, cnt) e) as HT.
  assert (∃ e', yellow_body guess i (fb, cnt) e
        = (e', Ok (if b then (fb, cnt)
                   else if decide (0 < t g)
                        then (<[i:=YELLOW]> fb, counter_decr cnt g)
                        else (fb, cnt)))) as [e' E];
    [|exists e'; split; [exact E|by rewrite E in HT]].
  clear HT. unfold yellow_body.
  erewrite bind_ok by (unfold lift; erewrite getitem_nat by exact Hf; done).
  destruct b; simpl bool_mark.
  { rewrite bool_decide_eq_true_2 by done. eauto. }
  rewrite bool_decide_eq_false_2 by done.
  erewrite bind_ok by (unfold lift; rewrite Eg; done).
  erewrite bind_ok by reflexivity.
  apply status_char_index in Hg as [j Hk]. rewrite <- Ha in Hk.
  destruct (decide (0 < t g)) as [Hpos|Hneg].
  - rewrite !bool_decide_eq_true_2; [|rewrite Hag; lia|].
    2:{ apply occurrences_pos_elem. specialize (Hle g). lia. }
    cbn [andb].
    erewrite bind_ok
      by (unfold lift; rewrite setitem_nat
            by (eapply lookup_lt_Some; eauto); done).
    eapply (alphabet_update_ok _ (λ s, bool_decide (s ≠ GREEN))). exact Hk.
  - rewrite (bool_decide_eq_false_2 (counter_get cnt g > 0))
      by (rewrite Hag; lia).
    rewrite andb_false_r.
    eapply (alphabet_update_ok _ (λ s, bool_decide (s = EMPTY))). exact Hk.
Qed.

Lemma yellow_loop guess gs : ∀ bs gp fbp t cnt e,
  length gs = length bs →
  chars guess = gp ++ gs →
  length fbp = length gp →
  Forall status_char gs →
  length (alphabet_status e) = 26%nat →
  agrees cnt t →
  (∀ c, t c ≤ occurrences c (chars (secret_word e))) →
  ∃ e' cnt',
    for_each (seq (length gp) (length gs)) (yellow_body guess)
             (fbp ++ (bool_mark <$> bs), cnt) e
    = (e', Ok (fbp ++ pass_rest t gs bs, cnt')).
Proof.
  induction gs as [|g gs IH]; intros bs gp fbp t cnt e Hlen Hg Hfb Hlow Ha
    Hag Hle; destruct bs as [|b bs]; try discriminate Hlen.
  { simpl. eauto. }
  injection Hlen as Hlen. apply Forall_cons in Hlow as [Hlg Hlow].
  cbn [length seq for_each].
  destruct (yellow_body_run guess (length gp)
              (fbp ++ (bool_mark <$> b :: bs)) cnt t e b g)
    as (e1 & E1 & [Hsec Hal]%touches_status_secret); auto.
  { rewrite <- Hfb. apply list_lookup_middle. done. }
  { eapply str_getitem_middle; eauto. }
  erewrite bind_ok by exact E1. clear E1.
  assert (S (length gp) = length (gp ++ [g])) as ->
    by (rewrite length_app; simpl; lia).
  assert (∀ m, <[length gp:=m]> (fbp ++ (bool_mark <$> b :: bs))
          = (fbp ++ [m]) ++ (bool_mark <$> bs)) as Hins.
  { intros m. rewrite <- Hfb, insert_app_r_alt, Nat.sub_diag by lia.
    by rewrite <- app_assoc. }
  assert (fbp ++ (bool_mark <$> b :: bs)
          = (fbp ++ [bool_mark b]) ++ (bool_mark <$> bs)) as Hsame
    by (by rewrite <- app_assoc).
  assert (chars guess = (gp ++ [g]) ++ gs) as Hg'
    by (by rewrite <- app_assoc).
  assert (length (fbp ++ [GREEN]) = length (gp ++ [g])) as Hl1
    by (rewrite !length_app; simpl; lia).
  assert (∀ m, length (fbp ++ [m]) = length (gp ++ [g])) as Hl
    by (intros; rewrite !length_app; simpl; lia).
  assert (length (alphabet_status e1) = 26%nat) as Ha1 by congruence.
  assert (∀ c, t c ≤ occurrences c (chars (secret_word e1))) as Hle1
    by (by rewrite Hsec).
  simpl pass_rest. destruct b.
  - rewrite Hsame. change (bool_mark true) with GREEN.
    destruct (IH bs (gp ++ [g]) (fbp ++ [GREEN]) t cnt e1)
      as (e' & cnt' & E); auto.
    exists e', cnt'. rewrite E. by rewrite <- app_assoc.
  - destruct (decide (0 < t g)) as [Hpos|Hneg].
    + rewrite Hins.
      destruct (IH bs (gp ++ [g]) (fbp ++ [YELLOW]) (decrement t g)
                  (counter_decr cnt g) e1)
        as (e' & cnt' & E); auto using agrees_decr.
      { intros c. specialize (Hle1 c). unfold decrement.
        destruct (decide (c = g)); lia. }
      exists e', cnt'. rewrite E. by rewrite <- app_assoc.
    + rewrite Hsame. change (bool_mark false) with GRAY.
      destruct (IH bs (gp ++ [g]) (fbp ++ [GRAY]) t cnt e1)
        as (e' & cnt' & E); auto.
      exists e', cnt'. rewrite E. by rewrite <- app_assoc.
Qed.

(** ** The scoring part of [step] computes [two_pass_score] *)

Lemma pass_green_length t gs : ∀ ss,
  length gs = length ss → length (pass_green t gs ss).1 = length gs.
Proof.
  revert t. induction gs as [|g gs IH]; intros t [|s ss] H;
    try discriminate H; [done|].
  rewrite pass_green_cons. injection H as H.
  destruct (decide (g = s)); simpl; by rewrite IH.
Qed.

Lemma pass_green_le gs : ∀ t ss c, (pass_green t gs ss).2 c ≤ t c.
Proof.
  induction gs as [|g gs IH]; intros t [|s ss] c; try (simpl; lia).
  rewrite pass_green_cons. destruct (decide (g = s)); simpl; [|apply IH].
  etrans; [apply IH|]. unfold decrement. destruct (decide (c = g)); lia.
Qed.

Lemma scoring_run guess e :
  len guess = word_length e →
  len (secret_word e) = word_length e →
  Forall status_char (chars guess) →
  length (alphabet_status e) = 26%nat →
  ∃ e', scoring guess e = (e', Ok (two_pass_score guess (secret_word e))) ∧
        touches_status e e'.
Proof.
  intros Hg Hs Hlow Ha.
  pose proof (scoring_touches guess e) as HT.
  assert (∃ e', scoring guess e
                = (e', Ok (two_pass_score guess (secret_word e)))) as [e' E];
    [|exists e'; split; [exact E|by rewrite E in HT]].
  clear HT. unfold scoring, two_pass_score.
  erewrite bind_ok by reflexivity.
  assert (Z.to_nat (word_length e) = length (chars guess)) as HL
    by (rewrite length_chars; unfold len in Hg; lia).
  assert (length (chars guess) = length (chars (secret_word e))) as Hlen
    by (rewrite !length_chars; unfold len in *; lia).
  erewrite bind_ok.
  2:{ unfold lift, np_full. rewrite bool_decide_eq_false_2; [done|].
      unfold len in Hg. lia. }
  erewrite bind_ok by reflexivity.
  unfold range. rewrite HL.
  set (t0 := λ c, occurrences c (chars (secret_word e))).
  destruct (green_loop guess (chars guess) (chars (secret_word e)) [] [] []
              t0 (Counter (secret_word e)) e)
    as (e1 & cnt1 & E1 & Hag1); auto using Counter_occurrences.
  pose proof (preserves_for_each touches_status (green_body guess)
                (seq 0 (length (chars guess)))
                (green_body_touches guess)
                (replicate (length (chars guess)) GRAY,
                 Counter (secret_word e)) e) as HT1.
  simpl in E1. rewrite E1 in HT1. simpl in HT1.
  apply touches_status_secret in HT1 as [Hsec Hal].
  erewrite bind_ok by exact E1.
  destruct (yellow_loop guess (chars guess)
              (pass_green t0 (chars guess) (chars (secret_word e))).1
              [] [] (pass_green t0 (chars guess) (chars (secret_word e))).2
              cnt1 e1) as (e2 & cnt2 & E2); auto.
  { symmetry. by apply pass_green_length. }
  { congruence. }
  { intros c. rewrite Hsec. apply (pass_green_le _ t0). }
  simpl in E2. erewrite bind_ok by exact E2.
  exists e2. by destruct (pass_green t0 _ _).
Qed.

Lemma getitem_elem_of {A} (l : list A) i x : getitem l i = Ok x → x ∈ l.
Proof.
  intros (k & _ & H)%getitem_Ok. eapply list_elem_of_lookup_2, H.
Qed.

Lemma episode_state_in_episode e : episode_state e → in_episode e.
Proof.
  intros (Hwl & Hsec & Ha). rewrite Forall_forall in Hwl.
  split_and!; [|by apply Hwl|done].
  apply Forall_forall. intros w Hw. by apply Hwl.
Qed.

(** The outcome of [step] with guesses left, on a guess whose characters
    all index the statuses. *)
Lemma step_run_in_episode action guess e :
  in_episode e →
  current_guess_count e < max_guesses e →
  getitem (word_list e) action = Ok guess →
  Forall status_char (chars guess) →
  ∃ e',
    step action e
    = (e', Ok (_get_obs e',
               (if bool_decide (guess = secret_word e)
                then PyFloat 1.0%float
                else if bool_decide (current_guess_count e + 1 = max_guesses e)
                then PyFloat (-1.0)%float
                else PyFloat (-0.1)%float),
               bool_decide (guess = secret_word e)
               || bool_decide (current_guess_count e + 1 = max_guesses e),
               false, _get_info e')) ∧
    last_feedback e' = two_pass_score guess (secret_word e) ∧
    current_guess_count e' = current_guess_count e + 1 ∧
    guess_history e' = guess_history e ++ [guess] ∧
    feedback_history e'
    = feedback_history e ++ [two_pass_score guess (secret_word e)] ∧
    max_guesses e' = max_guesses e.
Proof.
  intros (Hwl & Hslen & Ha) Hcount Hget Hglow.
  pose proof (getitem_elem_of _ _ _ Hget) as Hin.
  rewrite Forall_forall in Hwl.
  pose proof (Hwl _ Hin) as Hglen.
  unfold step.
  erewrite bind_ok by reflexivity. unfold id.
  rewrite bool_decide_eq_false_2 by lia.
  erewrite bind_ok by (unfold lift; rewrite Hget; done).
  erewrite bind_ok by reflexivity.
  destruct (scoring_run guess
              (set_current_guess_count (current_guess_count e + 1) e))
    as (e1 & E1 & [He1 _]); auto.
  erewrite bind_ok by exact E1.
  erewrite !bind_ok by reflexivity.
  rewrite He1. simpl.
  destruct (bool_decide (guess = secret_word e));
    [|destruct (bool_decide (current_guess_count e + 1 = max_guesses e))];
    (eexists; split; [reflexivity|repeat split; reflexivity]).
Qed.

(** The same on an episode state, where every word is made of lowercase
    letters. *)
Lemma step_run action guess e :
  episode_state e →
  current_guess_count e < max_guesses e →
  getitem (word_list e) action = Ok guess →
  ∃ e',
    step action e
    = (e', Ok (_get_obs e',
               (if bool_decide (guess = secret_word e)
                then PyFloat 1.0%float
                else if bool_decide (current_guess_count e + 1 = max_guesses e)
                then PyFloat (-1.0)%float
                else PyFloat (-0.1)%float),
               bool_decide (guess = secret_word e)
               || bool_decide (current_guess_count e + 1 = max_guesses e),
               false, _get_info e')) ∧
    last_feedback e' = two_pass_score guess (secret_word e) ∧
    current_guess_count e' = current_guess_count e + 1 ∧
    guess_history e' = guess_history e ++ [guess] ∧
    feedback_history e'
    = feedback_history e ++ [two_pass_score guess (secret_word e)] ∧
    max_guesses e' = max_guesses e.
Proof.
  intros He Hcount Hget.
  apply step_run_in_episode; auto using episode_state_in_episode.
  destruct He as (Hwl & _). rewrite Forall_forall in Hwl.
  destruct (Hwl _ (getitem_elem_of _ _ _ Hget)) as [_ Hlow].
  eapply Forall_impl; [exact Hlow|]. apply lower_letter_status_char.
Qed.

(** ** Properties of the two-pass rule *)

Lemma credited_cons c g gs m ms :
  credited c (g :: gs) (m :: ms)
  = (if bool_decide (g = c) && is_credit m then 1 else 0) + credited c gs ms.
Proof. reflexivity. Qed.


Lemma pass_green_spent gs : ∀ t ss c,
  (pass_green t gs ss).2 c
  = t c - credited c gs (bool_mark <$> (pass_green t gs ss).1).
Proof.
  induction gs as [|g gs IH]; intros t [|s ss] c; try (simpl; lia).
  rewrite pass_green_cons. destruct (decide (g = s)) as [->|Hne].
  - cbn [fst snd]. rewrite fmap_cons, credited_cons, IH. unfold decrement.
    simpl. destruct (decide (c = s)) as [->|].
    + rewrite bool_decide_eq_true_2 by done. simpl. lia.
    + rewrite bool_decide_eq_false_2 by done. simpl. lia.
  - cbn [fst snd]. rewrite fmap_cons, credited_cons, IH. simpl.
    rewrite andb_false_r. lia.
Qed.

Lemma pass_green_bound gs : ∀ t ss c,
  credited c gs (bool_mark <$> (pass_green t gs ss).1) ≤ occurrences c ss.
Proof.
  induction gs as [|g gs IH]; intros t [|s ss] c;
    try (simpl; apply occurrences_nonneg).
  rewrite pass_green_cons, occurrences_cons.
  destruct (decide (g = s)) as [->|Hne]; cbn [fst snd];
    rewrite fmap_cons, credited_cons; simpl.
  - specialize (IH (decrement t s) ss c).
    destruct (decide (s = c)) as [->|].
    + rewrite bool_decide_eq_true_2 by done. simpl. lia.
    + rewrite bool_decide_eq_false_2 by done. simpl. lia.
  - specialize (IH t ss c). rewrite andb_false_r.
    destruct (decide (s = c)); lia.
Qed.

Lemma pass_rest_credit gs : ∀ t bs c,
  0 ≤ t c →
  credited c gs (pass_rest t gs bs)
  ≤ t c + credited c gs (bool_mark <$> bs).
Proof.
  induction gs as [|g gs IH]; intros t [|b bs] c Ht; try (simpl; lia).
  destruct b; simpl pass_rest.
  - rewrite fmap_cons, !credited_cons. simpl bool_mark.
    specialize (IH t bs c Ht). lia.
  - rewrite fmap_cons. simpl bool_mark.
    destruct (decide (0 < t g)) as [Hpos|Hneg]; rewrite !credited_cons; simpl.
    + rewrite andb_false_r, andb_true_r.
      specialize (IH (decrement t g) bs c).
      assert (decrement t g c = if decide (c = g) then t c - 1 else t c) as Hd
        by reflexivity.
      destruct (decide (c = g)) as [->|Hne].
      * rewrite bool_decide_eq_true_2 by done. lia.
      * rewrite bool_decide_eq_false_2 by done. lia.
    + rewrite !andb_false_r. specialize (IH t bs c Ht). lia.
Qed.

Lemma two_pass_score_credit guess secret c :
  credited c (chars guess) (two_pass_score guess secret)
  ≤ occurrences c (chars secret).
Proof.
  unfold two_pass_score.
  set (t0 := λ c, occurrences c (chars secret)).
  pose proof (pass_green_spent (chars guess) t0 (chars secret) c) as Hs.
  pose proof (pass_green_bound (chars guess) t0 (chars secret) c) as Hb.
  pose proof (pass_rest_credit (chars guess)
                (pass_green t0 (chars guess) (chars secret)).2
                (pass_green t0 (chars guess) (chars secret)).1 c) as Hr.
  destruct (pass_green t0 _ _) as [bs t1]. simpl in *.
  subst t0. simpl in *. lia.
Qed.

Lemma pass_rest_length gs : ∀ t bs,
  length gs = length bs → length (pass_rest t gs bs) = length gs.
Proof.
  induction gs as [|g gs IH]; intros t [|b bs] H; try discriminate H; [done|].
  injection H as H. destruct b; simpl; [by rewrite IH|].
  destruct (decide (0 < t g)); simpl; by rewrite IH.
Qed.

Lemma two_pass_score_length guess secret :
  String.length guess = String.length secret →
  length (two_pass_score guess secret) = String.length guess.
Proof.
  intros H. unfold two_pass_score.
  set (t0 := λ c, occurrences c (chars secret)).
  pose proof (pass_green_length t0 (chars guess) (chars secret)) as Hl.
  destruct (pass_green t0 _ _) as [bs t1]. simpl in Hl.
  assert (length (chars guess) = length (chars secret)) as Hc
    by (by rewrite !length_chars).
  rewrite pass_rest_length; [apply length_chars|]. symmetry. by apply Hl.
Qed.

Lemma pass_all_green gs : ∀ t t',
  pass_rest t' gs (pass_green t gs gs).1 = replicate (length gs) GREEN.
Proof.
  induction gs as [|g gs IH]; intros t t'; [done|].
  rewrite pass_green_cons. rewrite decide_True by done. simpl.
  by rewrite IH.
Qed.

Lemma two_pass_score_self w :
  two_pass_score w w = replicate (String.length w) GREEN.
Proof.
  unfold two_pass_score.
  set (t0 := λ c, occurrences c (chars w)).
  pose proof (pass_all_green (chars w) t0) as H.
  destruct (pass_green t0 _ _) as [bs t1]. simpl in H.
  by rewrite H, length_chars.
Qed.

(** ** Every way a call of [step] can go *)

Lemma step_cases action e :
  step_outcome action e (step action e).1 (step action e).2.
Proof.
  unfold step. erewrite bind_ok by reflexivity. unfold id.
  case_bool_decide as Hc; [by apply step_noop|].
  assert (current_guess_count e < max_guesses e) as Hlt by lia.
  destruct (getitem (word_list e) action) as [guess|x] eqn:Hget.
  2:{ erewrite bind_raise by reflexivity. by apply step_bad_action. }
  erewrite bind_ok by reflexivity.
  erewrite bind_ok by reflexivity.
  destruct (scoring guess
              (set_current_guess_count (current_guess_count e + 1) e))
    as [e1 [fb|x]] eqn:Hsc.
  2:{ erewrite bind_raise by exact Hsc. eapply step_bad_letter; eauto. }
  erewrite bind_ok by exact Hsc.
  erewrite !bind_ok by reflexivity. unfold id.
  pose proof (step_played action e guess e1 fb Hlt Hget Hsc) as H.
  simpl in H. unfold verdict in H. simpl in H. simpl.
  destruct (bool_decide (guess = secret_word e1));
    [|destruct (bool_decide (current_guess_count e1 = max_guesses e1))];
    exact H.
Qed.

(** The count after scoring is the count before it. *)
Lemma scoring_count guess e e1 r :
  scoring guess e = (e1, r) →
  current_guess_count e1 = current_guess_count e ∧
  max_guesses e1 = max_guesses e.
Proof.
  intros H. pose proof (scoring_touches guess e) as [Heq _].
  rewrite H in Heq. simpl in Heq. by rewrite Heq.
Qed.

Lemma step_count action e :
  max_guesses (step action e).1 = max_guesses e ∧
  (current_guess_count (step action e).1 = current_guess_count e ∨
   current_guess_count e < max_guesses e ∧
   current_guess_count (step action e).1 = current_guess_count e + 1).
Proof.
  destruct (step_cases action e) as [?|? ? ?|? ? ? ? ? Hsc|? ? ? ? ? Hsc];
    auto; apply scoring_count in Hsc as [Hc Hm]; simpl in *; split; auto.
Qed.

(** ** Construction *)

Lemma vocabulary_elem ws L x :
  x ∈ vocabulary ws L ↔ ∃ w, w ∈ ws ∧ len w = L ∧ x = lower w.
Proof.
  unfold vocabulary, sorted, set_to_list.
  rewrite merge_sort_Permutation, elem_of_elements, elem_of_list_to_set.
  rewrite list_elem_of_fmap. setoid_rewrite list_elem_of_filter.
  split; intros (w & H); exists w; tauto.
Qed.

Lemma vocabulary_NoDup ws L : NoDup (vocabulary ws L).
Proof.
  unfold vocabulary, sorted, set_to_list.
  rewrite merge_sort_Permutation. apply NoDup_elements.
Qed.

Lemma vocabulary_sorted ws L : StronglySorted String.le (vocabulary ws L).
Proof. apply StronglySorted_merge_sort; apply _. Qed.

Lemma vocabulary_nil ws L :
  vocabulary ws L = [] ↔ ∀ w, w ∈ ws → len w ≠ L.
Proof.
  split.
  - intros H w Hw Hl.
    assert (lower w ∈ vocabulary ws L) as Hin
      by (apply vocabulary_elem; eauto).
    rewrite H in Hin. by apply elem_of_nil in Hin.
  - intros H. destruct (vocabulary ws L) as [|x l] eqn:E; [done|].
    assert (x ∈ vocabulary ws L) as Hin by (rewrite E; left).
    apply vocabulary_elem in Hin as (w & Hw & Hl & _). by destruct (H w Hw).
Qed.

Lemma init_Ok ws L G e :
  __init__ ws L G = Ok e ↔
  ws ≠ [] ∧ vocabulary ws L ≠ [] ∧ 0 ≤ G < 2 ^ 63 - 1 ∧ 0 ≤ L ∧
  e = mkEnv L G (vocabulary ws L) EmptyString 0
            (replicate (Z.to_nat L) EMPTY) (replicate 26 EMPTY) [] [].
Proof.
  unfold __init__, Discrete, np_zeros, np_full. fold (vocabulary ws L).
  repeat case_bool_decide; (split; [|intros (?&?&?&?&->)]);
    try done; try lia.
  intros [= <-]. repeat split; auto; lia.
Qed.

Lemma init_raises ws L G :
  ws = [] ∨ (∀ w, w ∈ ws → len w ≠ L) → __init__ ws L G = Raise ValueError.
Proof.
  unfold __init__. fold (vocabulary ws L). intros [->|H].
  - by rewrite bool_decide_eq_true_2.
  - case_bool_decide; [done|].
    by rewrite bool_decide_eq_true_2 by (by apply vocabulary_nil).
Qed.

(** ** Reset *)

Lemma choice_Ok l draw :
  l ≠ [] → ∃ w, choice l draw = Ok (rstrip_nul w) ∧ w ∈ l.
Proof.
  intros H. unfold choice.
  assert (draw `mod` length l < length l)%nat as Hlt.
  { apply Nat.mod_upper_bound. by destruct l. }
  apply lookup_lt_is_Some in Hlt as [w Hw]. rewrite Hw.
  eauto using list_elem_of_lookup_2.
Qed.

Lemma reset_run draw e :
  word_list e ≠ [] → 0 ≤ word_length e →
  ∃ w, w ∈ word_list e ∧
    let e' := mkEnv (word_length e) (max_guesses e) (word_list e)
                (rstrip_nul w) 0
                (replicate (Z.to_nat (word_length e)) EMPTY)
                (replicate 26 EMPTY) [] [] in
    reset draw e = (e', Ok (_get_obs e', _get_info e')).
Proof.
  intros Hne HL. destruct (choice_Ok (word_list e) draw Hne) as (w & Hw & Hin).
  exists w. split; [exact Hin|]. unfold reset.
  erewrite bind_ok by reflexivity.
  erewrite bind_ok by (unfold lift; rewrite Hw; done).
  erewrite !bind_ok by reflexivity.
  erewrite bind_ok.
  2:{ unfold lift, np_zeros, np_full. simpl.
      rewrite bool_decide_eq_false_2 by lia. done. }
  erewrite !bind_ok by reflexivity. reflexivity.
Qed.

(** Whatever [reset] does, it leaves the configuration alone and the count
    at its old value or at zero. *)
Lemma reset_frame draw e :
  word_length (reset draw e).1 = word_length e ∧
  max_guesses (reset draw e).1 = max_guesses e ∧
  word_list (reset draw e).1 = word_list e ∧
  (current_guess_count (reset draw e).1 = current_guess_count e ∨
   current_guess_count (reset draw e).1 = 0).
Proof.
  unfold reset. erewrite bind_ok by reflexivity.
  destruct (choice (word_list e) draw) as [w|x] eqn:Hw.
  2:{ erewrite bind_raise by reflexivity. simpl. auto. }
  erewrite bind_ok by reflexivity.
  erewrite !bind_ok by reflexivity.
  destruct (np_zeros (word_length e)) as [z|x] eqn:Hz.
  2:{ erewrite bind_raise by (unfold lift; simpl; rewrite Hz; done).
      simpl. auto. }
  erewrite bind_ok by (unfold lift; simpl; rewrite Hz; done).
  erewrite !bind_ok by reflexivity. simpl. auto.
Qed.

(** ** Reachable states *)

Lemma reachable_configured e : reachable e → configured e.
Proof.
  induction 1 as [ws L G e H|e draw _ IH|e action _ IH].
  - apply init_Ok in H as (_ & Hv & HG & HL & ->). unfold configured.
    simpl. repeat split; auto; lia.
  - destruct IH as (Hwl & HL & Hc).
    destruct (reset_frame draw e) as (E1 & E2 & E3 & E4).
    unfold configured. rewrite E1, E2, E3.
    destruct E4 as [-> | ->]; repeat split; auto; lia.
  - destruct IH as (Hwl & HL & Hc).
    destruct (step_same_game action e) as (E1 & _ & E3 & _).
    destruct (step_count action e) as (E2 & E4).
    unfold configured. rewrite E1, E2, E3.
    destruct E4 as [-> | [? ->]]; repeat split; auto; lia.
Qed.

(** ** Episode states exist and persist *)

Lemma lower_char_letter c : is_letter c → is_lower_letter (lower_char c).
Proof.
  unfold is_letter, is_lower_letter, ord.
  destruct c as [[] [] [] [] [] [] [] []]; vm_compute; intuition congruence.
Qed.

Lemma chars_lower w : chars (lower w) = lower_char <$> chars w.
Proof. unfold chars. induction w; simpl; f_equal; auto. Qed.

Lemma len_lower w : len (lower w) = len w.
Proof.
  unfold len. f_equal. rewrite <- !length_chars, chars_lower.
  apply length_fmap.
Qed.

Lemma rstrip_nul_id w :
  Forall (λ c, c ≠ Ascii.zero) (chars w) → rstrip_nul w = w.
Proof.
  unfold chars. induction w as [|c w IH]; [done|].
  simpl. intros [Hc Hw]%Forall_cons. rewrite (IH Hw).
  destruct w; [|done]. by apply Ascii.eqb_neq in Hc as ->.
Qed.

Lemma lower_letter_not_nul c : is_lower_letter c → c ≠ Ascii.zero.
Proof. intros H ->. unfold is_lower_letter in H. vm_compute in H. tauto. Qed.

Lemma init_reset_episode_state ws L G e draw :
  Forall (λ w, Forall is_letter (chars w)) ws →
  __init__ ws L G = Ok e →
  episode_state (reset draw e).1.
Proof.
  intros Hws (_ & Hv & _ & HL & ->)%init_Ok.
  set (e0 := mkEnv L G (vocabulary ws L) EmptyString 0
                (replicate (Z.to_nat L) EMPTY) (replicate 26 EMPTY) [] []).
  destruct (reset_run draw e0) as (w & Hw & E); auto.
  cbv zeta in E. rewrite E. unfold episode_state. simpl.
  assert (Forall (λ w, len w = L ∧ Forall is_lower_letter (chars w))
                 (vocabulary ws L)) as Hvoc.
  { apply Forall_forall. intros x (w0 & Hw0 & Hl & ->)%vocabulary_elem.
    rewrite len_lower, chars_lower. split; [done|].
    rewrite Forall_forall in Hws. specialize (Hws _ Hw0).
    apply Forall_fmap. eapply Forall_impl; [exact Hws|].
    intros c. apply lower_char_letter. }
  repeat split; auto.
  rewrite rstrip_nul_id; [exact Hw|].
  rewrite Forall_forall in Hvoc. destruct (Hvoc _ Hw) as [_ Hlow].
  eapply Forall_impl; [exact Hlow|]. apply lower_letter_not_nul.
Qed.

Lemma episode_state_step action e :
  episode_state e → episode_state (step action e).1.
Proof.
  intros (Hwl & Hsec & Ha).
  destruct (step_same_game action e) as (E1 & _ & E3 & E4 & HF).
  unfold episode_state. rewrite E1, E3, E4. repeat split; auto.
  rewrite <- Ha. symmetry. eapply Forall2_length, HF.
Qed.

Lemma getitem_in_range {A} (l : list A) action w :
  0 ≤ action → l !! Z.to_nat action = Some w → getitem l action = Ok w.
Proof.
  intros H0 H. rewrite <- (Z2Nat.id action) by done. by apply getitem_nat.
Qed.

Lemma getitem_out_of_range {A} (l : list A) action :
  action < - Z.of_nat (length l) ∨ Z.of_nat (length l) ≤ action →
  getitem l action = Raise IndexError.
Proof.
  intros H. unfold getitem, norm_index.
  by rewrite !bool_decide_eq_false_2 by lia.
Qed.

Lemma getitem_negative {A} (l : list A) action :
  - Z.of_nat (length l) ≤ action < 0 →
  getitem l action = getitem l (action + Z.of_nat (length l)).
Proof.
  intros H. unfold getitem, norm_index.
  rewrite (bool_decide_eq_false_2 (0 ≤ action < _)) by lia.
  rewrite (bool_decide_eq_true_2 (- _ ≤ action < 0)) by lia.
  rewrite (bool_decide_eq_true_2 (0 ≤ action + _ < _)) by lia.
  done.
Qed.

Lemma demo_init : __init__ demo_words 5 6 = Ok demo_env.
Proof. vm_compute. reflexivity. Qed.



Lemma demo_episode_state : episode_state demo_episode.
Proof.
  eapply init_reset_episode_state; [|apply demo_init].
  unfold demo_words, chars. cbn [list_ascii_of_string].
  repeat first [apply Forall_nil_2 | apply Forall_cons; split];
    vm_compute; first [left; split; discriminate|right; split; discriminate].
Qed.

Lemma demo_last_turn_state : episode_state demo_last_turn.
Proof.
  destruct demo_episode_state as (H1 & H2 & H3). repeat split; auto.
Qed.

(** The guard at the head of [step]. *)
Lemma step_exhausted action e :
  current_guess_count e >= max_guesses e →
  step action e = (e, Ok (_get_obs e, PyInt 0, true, false, _get_info e)).
Proof.
  intros H. unfold step. erewrite bind_ok by reflexivity. unfold id.
  by rewrite bool_decide_eq_true_2.
Qed.

Lemma apostrophe_init : __init__ apostrophe_words 5 6 = Ok apostrophe_new.
Proof. vm_compute. reflexivity. Qed.

Lemma apostrophe_episode_reachable draw : reachable (apostrophe_episode draw).
Proof. apply reach_reset. eapply reach_init, apostrophe_init. Qed.

(** Outside the lowercase alphabet [_letter_to_int] leaves the range of the
    status array: the apostrophe of "can't" is index -58, and [step] raises
    after it has counted the guess and written the greens before it. *)
Example step_non_letter_raises :
  ∃ e', step 0 apostrophe_env = (e', Raise IndexError) ∧
        current_guess_count e' = 1 ∧
        alphabet_status e' !! 2%nat = Some GREEN ∧
        last_feedback e' = replicate 5 EMPTY.
Proof. eexists. split; [vm_compute; reflexivity|]. repeat split. Qed.

(** ** Loop invariants for calls that return *)

Lemma for_each_inv {A} (I : nat → A → WordleEnv → Prop)
    (body : nat → A → M A) n :
  (∀ k a e a' e', (k < n)%nat → I k a e →
                  body k a e = (e', Ok a') → I (S k) a' e') →
  ∀ a e a' e',
    I 0%nat a e → for_each (seq 0 n) body a e = (e', Ok a') → I n a' e'.
Proof.
  intros Hbody.
  assert (∀ m s a e a' e', (s + m = n)%nat → I s a e →
            for_each (seq s m) body a e = (e', Ok a') → I n a' e') as H.
  { induction m as [|m IH]; intros s a e a' e' Hs HI E; simpl in E.
    - injection E as <- <-. by replace n with s by lia.
    - unfold mbind, M_bind in E.
      destruct (body s a e) as [e1 [a1|x]] eqn:Eb; [|discriminate].
      apply (IH (S s) a1 e1); [lia| |exact E].
      eapply Hbody; eauto. lia. }
  intros a e a' e'. apply (H n 0%nat). lia.
Qed.

Lemma setitem_Ok {A} (l : list A) i x l' :
  setitem l i x = Ok l' →
  ∃ k, norm_index (length l) i = Some k ∧ l' = <[k:=x]> l.
Proof.
  unfold setitem. destruct (norm_index _ _) as [k|]; [|done].
  intros [= <-]. eauto.
Qed.

Lemma str_getitem_Ok w i c : str_getitem w i = Ok c ↔ chars w !! i = Some c.
Proof.
  unfold str_getitem. destruct (chars w !! i); split; intros; simplify_eq; done.
Qed.

Lemma alphabet_set_inv i v e e' u :
  alphabet_set i v e = (e', Ok u) →
  ∃ k, norm_index (length (alphabet_status e)) i = Some k ∧
       e' = set_alphabet_status (<[k:=v]> (alphabet_status e)) e.
Proof.
  unfold alphabet_set, mbind, M_bind, gets, lift, modify.
  destruct (setitem _ _ _) as [a'|] eqn:E; [|done].
  apply setitem_Ok in E as (k & Hk & ->). intros [= <-]. eauto.
Qed.

Lemma green_body_inv guess k fb cnt e e' fb' cnt' :
  green_body guess k (fb, cnt) e = (e', Ok (fb', cnt')) →
  ∃ g s, chars guess !! k = Some g ∧ chars (secret_word e) !! k = Some s ∧
    ((g ≠ s ∧ fb' = fb ∧ cnt' = cnt ∧ e' = e) ∨
     (g = s ∧ (k < length fb)%nat ∧ fb' = <[k:=GREEN]> fb ∧
      cnt' = counter_decr cnt g ∧
      ∃ j, norm_index (length (alphabet_status e)) (_letter_to_int g) = Some j
           ∧ e' = set_alphabet_status (<[j:=GREEN]> (alphabet_status e)) e)).
Proof.
  unfold green_body. unfold mbind at 1 2 3. unfold M_bind, lift, gets.
  intros H.
  destruct (str_getitem guess k) as [g|] eqn:Eg; [|done].
  destruct (str_getitem (secret_word e) k) as [s|] eqn:Es; [|done].
  apply str_getitem_Ok in Eg, Es. exists g, s. split; [done|]. split; [done|].
  case_bool_decide as Hgs.
  - unfold mbind, M_bind in H.
    destruct (setitem fb (Z.of_nat k) GREEN) as [fb1|] eqn:Ef; [|done].
    apply setitem_Ok in Ef as (k' & Hk' & ->).
    pose proof (norm_index_lt _ _ _ Hk') as Hlt.
    assert (k' = k) as ->.
    { unfold norm_index in Hk'. repeat case_bool_decide; simplify_eq; lia. }
    destruct (alphabet_set _ _ _) as [e1 [[]|]] eqn:Ea; [|done].
    apply alphabet_set_inv in Ea as (j & Hj & ->).
    injection H as <- <- <-. right. repeat split; eauto.
  - injection H as <- <- <-. left. done.
Qed.

Lemma alphabet_get_inv i e e' s :
  alphabet_get i e = (e', Ok s) →
  e' = e ∧ ∃ j, norm_index (length (alphabet_status e)) i = Some j ∧
                alphabet_status e !! j = Some s.
Proof.
  unfold alphabet_get, mbind, M_bind, gets, lift.
  destruct (getitem _ _) as [s'|] eqn:E; [|done].
  intros [= <- <-]. split; [done|]. by apply getitem_Ok.
Qed.

Lemma getitem_nat_Ok {A} (l : list A) (k : nat) x :
  getitem l (Z.of_nat k) = Ok x → l !! k = Some x.
Proof.
  intros (k' & Hk' & Hx)%getitem_Ok.
  assert (k' = k) as ->; [|done].
  unfold norm_index in Hk'. repeat case_bool_decide; simplify_eq; lia.
Qed.

(** What a returning iteration of the second loop did: at a GREEN position
    nothing; elsewhere it read the letter's status [s] at cell [j] and either
    marked the position YELLOW, raising a status below GREEN to YELLOW, or
    left the mark and raised an EMPTY status to GRAY. *)
Lemma yellow_body_inv guess k fb cnt e e' fb' cnt' :
  yellow_body guess k (fb, cnt) e = (e', Ok (fb', cnt')) →
  ∃ f, fb !! k = Some f ∧
    ((f = GREEN ∧ fb' = fb ∧ cnt' = cnt ∧ e' = e) ∨
     (f ≠ GREEN ∧ ∃ g j s,
        chars guess !! k = Some g ∧
        norm_index (length (alphabet_status e)) (_letter_to_int g) = Some j ∧
        alphabet_status e !! j = Some s ∧
        ((g ∈ chars (secret_word e) ∧ counter_get cnt g > 0 ∧
          fb' = <[k:=YELLOW]> fb ∧ cnt' = counter_decr cnt g ∧
          e' = (if decide (s = GREEN) then e
                else set_alphabet_status
                       (<[j:=YELLOW]> (alphabet_status e)) e)) ∨
         (¬ (g ∈ chars (secret_word e) ∧ counter_get cnt g > 0) ∧
          fb' = fb ∧ cnt' = cnt ∧
          e' = (if decide (s = EMPTY)
                then set_alphabet_status
                       (<[j:=GRAY]> (alphabet_status e)) e
                else e))))).
Proof.
  unfold yellow_body. unfold mbind at 1. unfold M_bind, lift. intros H.
  destruct (getitem fb (Z.of_nat k)) as [f|] eqn:Ef; [|done].
  apply getitem_nat_Ok in Ef. exists f. split; [done|].
  case_bool_decide as Hf.
  { injection H as <- <- <-. left. done. }
  right. split; [done|].
  unfold mbind at 1 2 in H. unfold M_bind, lift, gets in H.
  destruct (str_getitem guess k) as [g|] eqn:Eg; [|done].
  apply str_getitem_Ok in Eg.
  destruct (bool_decide (g ∈ chars (secret_word e))
            && bool_decide (counter_get cnt g > 0)) eqn:Hcond.
  - apply andb_true_iff in Hcond as [Hin%bool_decide_eq_true
                                     Hpos%bool_decide_eq_true].
    unfold mbind at 1 in H. unfold M_bind in H.
    destruct (setitem fb (Z.of_nat k) YELLOW) as [fb1|] eqn:Es; [|done].
    apply setitem_Ok in Es as (k' & Hk' & ->).
    assert (k' = k) as ->.
    { unfold norm_index in Hk'. repeat case_bool_decide; simplify_eq; lia. }
    unfold mbind at 1 in H. unfold M_bind in H.
    destruct (alphabet_get _ e) as [e1 [s|]] eqn:Ea; [|done].
    apply alphabet_get_inv in Ea as (-> & j & Hj & Hs).
    exists g, j, s. repeat split; auto. left.
    unfold mbind, M_bind in H. case_bool_decide as Hsg.
    + destruct (alphabet_set _ _ _) as [e1 [[]|]] eqn:Ea; [|done].
      apply alphabet_set_inv in Ea as (j' & Hj' & ->).
      injection H as <- <- <-. rewrite decide_False by done.
      repeat split; auto. congruence.
    + injection H as <- <- <-. rewrite decide_True by done. done.
  - apply andb_false_iff in Hcond.
    unfold mbind at 1 in H. unfold M_bind in H.
    destruct (alphabet_get _ e) as [e1 [s|]] eqn:Ea; [|done].
    apply alphabet_get_inv in Ea as (-> & j & Hj & Hs).
    exists g, j, s. repeat split; auto. right.
    split.
    { intros [Hin Hpos].
      destruct Hcond as [Hc|Hc]; apply bool_decide_eq_false in Hc; tauto. }
    unfold mbind, M_bind in H. case_bool_decide as Hse.
    + destruct (alphabet_set _ _ _) as [e1 [[]|]] eqn:Ea; [|done].
      apply alphabet_set_inv in Ea as (j' & Hj' & ->).
      injection H as <- <- <-. rewrite decide_True by done.
      repeat split; auto. congruence.
    + injection H as <- <- <-. rewrite decide_False by done. done.
Qed.

(** ** What a returning [scoring] guarantees, in any state *)

Lemma getitem_insert {A} (a : list A) i j v :
  norm_index (length a) i = Some j → getitem (<[j:=v]> a) i = Ok v.
Proof.
  intros H. unfold getitem. rewrite length_insert, H.
  by rewrite list_lookup_insert_eq by (eapply norm_index_lt; eauto).
Qed.

Lemma covered_mono a a' g m :
  Forall2 promoted a a' → covered a g m → covered a' g m.
Proof.
  intros HF (s & (j & Hj & Hs)%getitem_Ok & Hle).
  destruct (Forall2_lookup_l _ _ _ _ _ HF Hs) as (s' & Hs' & Hp).
  exists s'. split; [|unfold promoted in Hp; lia].
  unfold getitem. rewrite <- (Forall2_length _ _ _ HF), Hj. by rewrite Hs'.
Qed.

Lemma covered_insert a g j v m :
  norm_index (length a) (_letter_to_int g) = Some j →
  mark_code m ≤ mark_code v →
  covered (<[j:=v]> a) g m.
Proof. intros Hj Hle. exists v. split; [by apply getitem_insert|done]. Qed.

Lemma covered_lookup a g j s m :
  norm_index (length a) (_letter_to_int g) = Some j →
  a !! j = Some s → mark_code m ≤ mark_code s →
  covered a g m.
Proof.
  intros Hj Hs Hle. exists s. split; [|done].
  unfold getitem. by rewrite Hj, Hs.
Qed.

Lemma green_loop_inv guess n fb0 cnt0 e fb cnt e' :
  Forall (λ m, m = GRAY) fb0 →
  for_each (seq 0 n) (green_body guess) (fb0, cnt0) e = (e', Ok (fb, cnt)) →
  length fb = length fb0 ∧
  Forall (λ m, m = GRAY ∨ m = GREEN) fb ∧
  (n ≤ length (chars guess))%nat ∧
  (n ≤ length (chars (secret_word e)))%nat ∧
  (∀ i g, chars guess !! i = Some g → fb !! i = Some GREEN →
          covered (alphabet_status e') g GREEN).
Proof.
  intros Hgray E.
  pose proof (for_each_inv
    (λ k '(fb, _) e1,
       length fb = length fb0 ∧
       Forall (λ m, m = GRAY ∨ m = GREEN) fb ∧
       (k ≤ length (chars guess))%nat ∧
       (k ≤ length (chars (secret_word e)))%nat ∧
       secret_word e1 = secret_word e ∧
       (∀ i g, chars guess !! i = Some g → fb !! i = Some GREEN →
               covered (alphabet_status e1) g GREEN))
    (green_body guess) n) as H.
  cbv beta in H.
  eapply (λ Hb, H Hb (fb0, cnt0) e (fb, cnt) e') in E; clear H.
  - destruct E as (?&?&?&?&?&?). auto.
  - intros k [fb1 cnt1] e1 [fb2 cnt2] e2 Hk (Hl & HF & _ & _ & Hsec & HJ) Eb.
    pose proof (green_body_touches guess k (fb1, cnt1) e1) as HT.
    rewrite Eb in HT. simpl in HT.
    apply green_body_inv in Eb as (g & s & Hg & Hs & Hcase).
    rewrite Hsec in Hs.
    pose proof (lookup_lt_Some _ _ _ Hg) as Hkg.
    pose proof (lookup_lt_Some _ _ _ Hs) as Hks.
    destruct Hcase as [(_ & -> & -> & ->)|(-> & Hlt & -> & -> & j & Hj & ->)].
    + repeat split; auto.
    + rewrite length_insert. repeat split; auto.
      * apply Forall_insert; auto.
      * intros i g Hi Hgreen. simpl.
        destruct (decide (i = k)) as [->|Hne].
        -- rewrite Hg in Hi. injection Hi as <-.
           by apply covered_insert.
        -- rewrite list_lookup_insert_ne in Hgreen by done.
           destruct HT as [_ HT]. simpl in HT.
           eapply covered_mono; [exact HT|]. eapply HJ; eauto.
  - repeat split; auto; try lia.
    + eapply Forall_impl; [exact Hgray|]. auto.
    + intros i g _ Hi. rewrite Forall_forall in Hgray.
      apply list_elem_of_lookup_2, Hgray in Hi. discriminate.
Qed.

Lemma yellow_loop_inv guess n fb0 cnt0 e fb cnt e' :
  Forall (λ m, m = GRAY ∨ m = GREEN) fb0 →
  (∀ i g, chars guess !! i = Some g → fb0 !! i = Some GREEN →
          covered (alphabet_status e) g GREEN) →
  for_each (seq 0 n) (yellow_body guess) (fb0, cnt0) e = (e', Ok (fb, cnt)) →
  length fb = length fb0 ∧
  Forall (λ m, m ≠ EMPTY) fb ∧
  (∀ i g m, (i < n)%nat → chars guess !! i = Some g → fb !! i = Some m →
            covered (alphabet_status e') g m).
Proof.
  intros Hgg HJ0 E.
  pose proof (for_each_inv
    (λ k '(fb, _) e1,
       length fb = length fb0 ∧
       Forall (λ m, m ≠ EMPTY) fb ∧
       (∀ i m, (k ≤ i)%nat → fb !! i = Some m → m = GRAY ∨ m = GREEN) ∧
       (∀ i g m, chars guess !! i = Some g → fb !! i = Some m →
                 (i < k)%nat ∨ m = GREEN →
                 covered (alphabet_status e1) g m))
    (yellow_body guess) n) as H.
  cbv beta in H.
  eapply (λ Hb, H Hb (fb0, cnt0) e (fb, cnt) e') in E; clear H.
  - destruct E as (Hl & HF & _ & HJ). split_and!; auto.
    intros i g m Hi Hg Hm. eapply HJ; eauto.
  - intros k [fb1 cnt1] e1 [fb2 cnt2] e2 Hk (Hl & HF & Hrest & HJ) Eb.
    pose proof (yellow_body_touches guess k (fb1, cnt1) e1) as [_ HT].
    rewrite Eb in HT. simpl in HT.
    apply yellow_body_inv in Eb as (f & Hf & Hcase).
    destruct Hcase as [(-> & -> & -> & ->)
                      |(Hfg & g & j & s & Hg & Hj & Hs & Hcase)].
    { split_and!; [done|done| |].
      - intros i m Hi. apply Hrest. lia.
      - intros i g m Hg Hm [Hi|Hi]; [|eapply HJ; eauto].
        destruct (decide (i = k)) as [->|]; [|eapply HJ; eauto; left; lia].
        rewrite Hf in Hm. injection Hm as <-. eapply HJ; eauto. }
    assert (f = GRAY) as ->.
    { destruct (Hrest k f) as [?|?]; auto; done. }
    destruct Hcase as [(_ & _ & -> & -> & ->)|(_ & -> & -> & ->)].
    + split_and!.
      * by rewrite length_insert.
      * by apply Forall_insert.
      * intros i m Hi Hm. rewrite list_lookup_insert_ne in Hm by lia.
        apply (Hrest i m); [lia|done].
      * intros i g' m Hg' Hm Hi.
        destruct (decide (i = k)) as [->|Hne].
        -- rewrite list_lookup_insert_eq in Hm
             by (eapply lookup_lt_Some; eauto).
           injection Hm as <-. rewrite Hg in Hg'. injection Hg' as <-.
           destruct (decide (s = GREEN)) as [->|Hsg].
           ++ eapply covered_lookup; eauto. simpl. lia.
           ++ simpl. apply covered_insert; [done|simpl; lia].
        -- rewrite list_lookup_insert_ne in Hm by done.
           eapply covered_mono; [exact HT|]. eapply HJ; eauto.
           destruct Hi as [Hi|Hi]; [left; lia|by right].
    + split_and!; [done|done| |].
      * intros i m Hi. apply Hrest. lia.
      * intros i g' m Hg' Hm Hi.
        destruct (decide (i = k)) as [->|Hne].
        -- rewrite Hf in Hm. injection Hm as <-.
           rewrite Hg in Hg'. injection Hg' as <-.
           destruct (decide (s = EMPTY)) as [->|Hse].
           ++ simpl. apply covered_insert; [done|simpl; lia].
           ++ eapply covered_lookup; eauto. destruct s; simpl; try lia; done.
        -- eapply covered_mono; [exact HT|]. eapply HJ; eauto.
           destruct Hi as [Hi|Hi]; [left; lia|by right].
  - split_and!; [done| | |].
    + eapply Forall_impl; [exact Hgg|]. intros m [->| ->]; discriminate.
    + intros i m _ Hm. rewrite Forall_forall in Hgg.
      eapply Hgg, list_elem_of_lookup_2, Hm.
    + intros i g m Hg Hm [Hi| ->]; [lia|]. eapply HJ0; eauto.
Qed.

(** A returning [scoring], in any state at all: one mark per position, none
    of them EMPTY; the guess and the secret are at least [word_length] long;
    and the status array covers every mark it returns. *)
Lemma scoring_inv guess e e' fb :
  scoring guess e = (e', Ok fb) →
  0 ≤ word_length e ∧
  length fb = Z.to_nat (word_length e) ∧
  Forall (λ m, m ≠ EMPTY) fb ∧
  (Z.to_nat (word_length e) ≤ length (chars guess))%nat ∧
  (Z.to_nat (word_length e) ≤ length (chars (secret_word e)))%nat ∧
  (∀ i g m, chars guess !! i = Some g → fb !! i = Some m →
            covered (alphabet_status e') g m).
Proof.
  unfold scoring. intros H.
  erewrite bind_ok in H by reflexivity.
  unfold mbind at 1 in H. unfold M_bind, lift, np_full in H.
  case_bool_decide as HL; [done|].
  erewrite bind_ok in H by reflexivity.
  unfold mbind at 1 in H. unfold M_bind in H.
  destruct (for_each _ (green_body guess) _ e) as [e1 [[fb1 cnt1]|]] eqn:E1;
    [|done].
  unfold mbind at 1 in H. unfold M_bind in H.
  destruct (for_each _ (yellow_body guess) _ e1) as [e2 [[fb2 cnt2]|]] eqn:E2;
    [|done].
  injection H as <- <-.
  unfold range in E1, E2.
  apply green_loop_inv in E1 as (Hl1 & HF1 & Hg & Hs & HJ1);
    [|by apply Forall_replicate].
  apply yellow_loop_inv in E2 as (Hl2 & HF2 & HJ2); auto.
  rewrite length_replicate in Hl1.
  split_and!; auto; try lia.
  intros i g m Hi Hm. eapply HJ2; eauto.
  pose proof (lookup_lt_Some _ _ _ Hm). lia.
Qed.

(** ** What every reachable state keeps *)

Lemma reachable_recorded e : reachable e → recorded e.
Proof.
  induction 1 as [ws L G e H|e draw Hr IH|e action Hr IH].
  - apply init_Ok in H as (_ & _ & _ & HL & ->). unfold recorded. simpl.
    rewrite length_replicate. split_and!; auto. lia.
  - apply reachable_configured in Hr as (Hwl & HL & _).
    destruct (reset_run draw e Hwl HL) as (w & _ & E). cbv zeta in E.
    rewrite E. unfold recorded. simpl. rewrite length_replicate.
    split_and!; auto. lia.
  - pose proof (step_cases action e) as Hc.
    destruct (step action e) as [e' r]. simpl in *.
    destruct IH as (H1 & H2 & H3 & H4 & H5 & H6 & H7).
    destruct Hc as [?|x ? Hx|g e1 x ? Hg Hsc|g e1 fb ? Hg Hsc]; [done|done| |].
    + pose proof (scoring_touches g
        (set_current_guess_count (current_guess_count e + 1) e)) as [HT HF].
      rewrite Hsc in HT, HF. simpl in HT, HF. rewrite HT.
      unfold recorded. simpl. split_and!; auto; try lia.
      rewrite <- H2. symmetry. eapply Forall2_length, HF.
    + pose proof (scoring_touches g
        (set_current_guess_count (current_guess_count e + 1) e)) as [HT HF].
      rewrite Hsc in HT, HF. simpl in HT, HF.
      apply scoring_inv in Hsc as (_ & Hl & Hne & Hgl & _ & _).
      simpl in Hl, Hgl. subst e'. rewrite HT.
      unfold recorded, after_scoring. simpl. split_and!; auto.
      * rewrite <- H2. symmetry. eapply Forall2_length, HF.
      * rewrite !length_app. simpl. lia.
      * rewrite length_app. simpl. lia.
      * apply Forall_app. split; [done|]. apply Forall_singleton.
        split; [by eapply getitem_elem_of|done].
      * apply Forall_app. split; [done|]. by apply Forall_singleton.
      * right. apply last_snoc.
Qed.


(** ** Inside an episode *)

Lemma reachable_words_length e :
  reachable e → Forall (λ w, len w = word_length e) (word_list e).
Proof.
  induction 1 as [ws L G e H|e draw _ IH|e action _ IH].
  - apply init_Ok in H as (_ & _ & _ & _ & ->). simpl.
    apply Forall_forall. intros x (w & _ & Hl & ->)%vocabulary_elem.
    by rewrite len_lower.
  - destruct (reset_frame draw e) as (-> & _ & -> & _). done.
  - destruct (step_same_game action e) as (-> & _ & -> & _). done.
Qed.

(** Every state of a constructed object whose secret has the word length
    is inside an episode. *)
Lemma reachable_in_episode e :
  reachable e → len (secret_word e) = word_length e → in_episode e.
Proof.
  intros Hr Hs. split_and!; [by apply reachable_words_length|done|].
  by destruct (reachable_recorded e Hr) as (_ & ? & _).
Qed.

(** ** The exceptions of the scoring loops *)

Lemma index_errors_ret {A} (a : A) : index_errors (mret a : M A).
Proof. intros e e' x H. discriminate H. Qed.

Lemma index_errors_gets {A} (f : WordleEnv → A) : index_errors (gets f).
Proof. intros e e' x H. discriminate H. Qed.

Lemma index_errors_modify f : index_errors (modify f).
Proof. intros e e' x H. discriminate H. Qed.

Lemma index_errors_lift {A} (r : result A) :
  (∀ x, r = Raise x → x = IndexError) → index_errors (lift r).
Proof. intros Hr e e' x [= _ H]. by apply Hr. Qed.

Lemma index_errors_bind {A B} (m : M A) (f : A → M B) :
  index_errors m → (∀ a, index_errors (f a)) → index_errors (m ≫= f).
Proof.
  intros Hm Hf e e' x. unfold mbind, M_bind.
  destruct (m e) as [e1 [a|y]] eqn:E.
  - apply Hf.
  - intros [= <- <-]. eapply Hm, E.
Qed.

Lemma index_errors_for_each {A} (body : nat → A → M A) l :
  (∀ i a, index_errors (body i a)) → ∀ a, index_errors (for_each l body a).
Proof.
  intros Hb. induction l as [|i l IH]; intros a; simpl.
  - apply index_errors_ret.
  - apply index_errors_bind; auto.
Qed.

Lemma getitem_raises {A} (l : list A) i x :
  getitem l i = Raise x → x = IndexError.
Proof.
  unfold getitem. destruct (norm_index _ _) as [k|]; [|congruence].
  destruct (l !! k); congruence.
Qed.

Lemma setitem_raises {A} (l : list A) i v x :
  setitem l i v = Raise x → x = IndexError.
Proof. unfold setitem. destruct (norm_index _ _); congruence. Qed.

Lemma str_getitem_raises w i x : str_getitem w i = Raise x → x = IndexError.
Proof. unfold str_getitem. destruct (chars w !! i); congruence. Qed.

Ltac raise_leaf :=
  first [ apply index_errors_ret
        | apply index_errors_gets
        | apply index_errors_modify
        | apply index_errors_lift; intros ?;
          first [ apply getitem_raises | apply setitem_raises
                | apply str_getitem_raises ] ].

Ltac raise_bind := apply index_errors_bind; [try raise_leaf|intros ?].

Lemma alphabet_set_index_errors i v : index_errors (alphabet_set i v).
Proof. unfold alphabet_set. do 2 raise_bind. raise_leaf. Qed.

Lemma alphabet_get_index_errors i : index_errors (alphabet_get i).
Proof. unfold alphabet_get. raise_bind. raise_leaf. Qed.

Lemma green_body_index_errors guess i st :
  index_errors (green_body guess i st).
Proof.
  destruct st as [fb cnt]. unfold green_body. do 3 raise_bind.
  case_bool_decide; [|raise_leaf].
  raise_bind. raise_bind; [apply alphabet_set_index_errors|]. raise_leaf.
Qed.

Lemma yellow_body_index_errors guess i st :
  index_errors (yellow_body guess i st).
Proof.
  destruct st as [fb cnt]. unfold yellow_body. raise_bind.
  case_bool_decide; [raise_leaf|]. do 2 raise_bind.
  destruct (_ && _).
  - raise_bind. raise_bind; [apply alphabet_get_index_errors|].
    raise_bind; [|raise_leaf].
    case_bool_decide; [apply alphabet_set_index_errors|raise_leaf].
  - raise_bind; [apply alphabet_get_index_errors|].
    raise_bind; [|raise_leaf].
    case_bool_decide; [apply alphabet_set_index_errors|raise_leaf].
Qed.

(** With a word length that is not negative, [scoring] raises nothing but
    [IndexError]. *)
Lemma scoring_raises guess e e' x :
  0 ≤ word_length e → scoring guess e = (e', Raise x) → x = IndexError.
Proof.
  intros HL H. unfold scoring in H.
  erewrite bind_ok in H by reflexivity.
  erewrite bind_ok in H
    by (unfold lift, np_full; rewrite bool_decide_eq_false_2 by lia; done).
  erewrite bind_ok in H by reflexivity.
  revert H. apply index_errors_bind.
  - apply index_errors_for_each. intros; apply green_body_index_errors.
  - intros [fb cnt]. apply index_errors_bind.
    + apply index_errors_for_each. intros; apply yellow_body_index_errors.
    + intros [fb' cnt']. apply index_errors_ret.
Qed.

(** A guess with a character that does not index the statuses: [step]
    counts the guess and then raises [IndexError]. *)
Lemma step_raises_index action guess e :
  in_episode e →
  current_guess_count e < max_guesses e →
  getitem (word_list e) action = Ok guess →
  ¬ Forall status_char (chars guess) →
  ∃ e', step action e = (e', Raise IndexError) ∧
        current_guess_count e' = current_guess_count e + 1.
Proof.
  intros (Hwl & Hsl & Ha) Hlt Hget Hbad.
  rewrite Forall_forall in Hwl.
  pose proof (Hwl _ (getitem_elem_of _ _ _ Hget)) as Hgl.
  pose proof (step_cases action e) as Hc.
  destruct (step action e) as [e' r]. simpl in Hc.
  destruct Hc as [?|x ? Hx|g e1 x ? Hg Hsc|g e1 fb ? Hg Hsc];
    [lia|congruence| |].
  - assert (g = guess) as -> by congruence.
    pose proof (scoring_count _ _ _ _ Hsc) as [Hc1 _].
    apply scoring_raises in Hsc as ->; [|simpl; unfold len in Hgl; lia].
    exists e1. split; [reflexivity|exact Hc1].
  - assert (g = guess) as -> by congruence. destruct Hbad.
    pose proof (scoring_touches guess
      (set_current_guess_count (current_guess_count e + 1) e)) as [_ HF].
    rewrite Hsc in HF. simpl in HF. apply Forall2_length in HF.
    apply scoring_inv in Hsc as (_ & Hl & _ & _ & _ & HJ). simpl in Hl.
    apply Forall_lookup. intros i c Hi.
    destruct (lookup_lt_is_Some_2 fb i) as [m Hm].
    { apply lookup_lt_Some in Hi. rewrite length_chars in Hi.
      unfold len in Hgl. lia. }
    destruct (HJ i c m Hi Hm) as (s & (k & Hk & _)%getitem_Ok & _).
    apply status_char_index. exists k. by rewrite <- Ha, HF.
Qed.

(** * The claims *)

(** C1, as the code has it.  Inside an episode (words and secret of the
    word length, 26 statuses) with guesses left and an in-range action:
    when every character of the decoded guess indexes the statuses, as
    every lowercase letter does, [step] returns, and the feedback it returns
    is the two-pass score of the guess against the secret: exact matches
    are GREEN and use up their letter's count first, then left to right a
    position is YELLOW while its letter's count is positive and GRAY
    otherwise; it has one mark per position, and for every letter the
    positions marked GREEN or YELLOW that carry it are no more than its
    occurrences in the secret.  When the guess has any other character,
    [step] returns no feedback: it counts the guess and raises
    [IndexError]. *)
Theorem step_feedback_is_two_pass_score e action guess :
  in_episode e →
  current_guess_count e < max_guesses e →
  0 ≤ action < Z.of_nat (length (word_list e)) →
  word_list e !! Z.to_nat action = Some guess →
  (Forall status_char (chars guess) →
   ∃ e' obs reward terminated truncated info,
     step action e = (e', Ok (obs, reward, terminated, truncated, info)) ∧
     obs_last_feedback obs = two_pass_score guess (secret_word e) ∧
     last_feedback e' = two_pass_score guess (secret_word e) ∧
     length (obs_last_feedback obs) = Z.to_nat (word_length e) ∧
     ∀ c, credited c (chars guess) (obs_last_feedback obs)
          ≤ occurrences c (chars (secret_word e))) ∧
  (¬ Forall status_char (chars guess) →
   ∃ e', step action e = (e', Raise IndexError) ∧
         current_guess_count e' = current_guess_count e + 1).
Proof.
  intros He Hc [H0 _] Hg.
  pose proof (getitem_in_range _ _ _ H0 Hg) as Hget.
  split; [|by apply step_raises_index].
  intros Hsc.
  destruct (step_run_in_episode action guess e He Hc Hget Hsc)
    as (e' & E & Hfb & _).
  destruct He as (Hwl & Hsl & _). rewrite Forall_forall in Hwl.
  pose proof (Hwl guess (list_elem_of_lookup_2 _ _ _ Hg)) as Hgl.
  do 6 eexists. split; [exact E|]. simpl. rewrite Hfb.
  repeat split; auto using two_pass_score_credit.
  rewrite two_pass_score_length; unfold len in *; lia.
Qed.

Lemma step_feedback_is_two_pass_score_witness :
  ∃ e' obs reward terminated truncated info,
    step 2 demo_episode = (e', Ok (obs, reward, terminated, truncated, info)) ∧
    obs_last_feedback obs = two_pass_score "lolly" "allow" ∧
    last_feedback e' = two_pass_score "lolly" "allow" ∧
    length (obs_last_feedback obs) = 5%nat ∧
    ∀ c, credited c (chars "lolly") (obs_last_feedback obs)
         ≤ occurrences c (chars "allow").
Proof.
  refine (proj1 (step_feedback_is_two_pass_score demo_episode 2 "lolly"
                   _ _ _ _) _).
  - exact (episode_state_in_episode _ demo_episode_state).
  - vm_compute. reflexivity.
  - vm_compute. split; [discriminate|reflexivity].
  - reflexivity.
  - unfold chars. cbn [list_ascii_of_string].
    repeat first [apply Forall_nil_2 | apply Forall_cons; split];
      vm_compute; (split; [discriminate|reflexivity]).
Defined.

(** C1 as stated fails on a word that is not made of letters.  The object
    built from "crane", "can't" and "slate" is in a non-terminal episode
    state after a reset that draws "crane", and action 0 is in range: it
    decodes "can't", and [step] returns no feedback at all but raises
    [IndexError] at the apostrophe, with the guess already counted. *)
Lemma step_non_letter_guess_no_feedback :
  reachable (apostrophe_episode 1) ∧ in_episode (apostrophe_episode 1) ∧
  secret_word (apostrophe_episode 1) = "crane" ∧
  current_guess_count (apostrophe_episode 1)
  < max_guesses (apostrophe_episode 1) ∧
  0 ≤ 0 < Z.of_nat (length (word_list (apostrophe_episode 1))) ∧
  word_list (apostrophe_episode 1) !! Z.to_nat 0 = Some "can't" ∧
  (∃ e', step 0 (apostrophe_episode 1) = (e', Raise IndexError) ∧
         current_guess_count e' = 1) ∧
  ¬ ∃ e' obs reward terminated truncated info,
      step 0 (apostrophe_episode 1)
      = (e', Ok (obs, reward, terminated, truncated, info)) ∧
      obs_last_feedback obs = two_pass_score "can't" "crane".
Proof.
  assert (reachable (apostrophe_episode 1)) as Hr
    by apply apostrophe_episode_reachable.
  split; [exact Hr|]. split; [by apply reachable_in_episode|].
  split; [reflexivity|]. split; [vm_compute; reflexivity|].
  split; [vm_compute; split; [discriminate|reflexivity]|].
  split; [reflexivity|].
  assert (step 0 (apostrophe_episode 1)
          = ((step 0 (apostrophe_episode 1)).1, Raise IndexError)) as E
    by (vm_compute; reflexivity).
  split.
  - eexists. split; [exact E|reflexivity].
  - intros (e' & obs & reward & terminated & truncated & info & E' & _).
    rewrite E in E'. discriminate E'.
Qed.

(** C2, as the code has it.  Once the guess count has reached the maximum,
    every call of [step], whatever the action, returns the current
    observation with reward 0 and terminated true and leaves the whole state
    as it was, so any number of such calls return the same. *)
Theorem step_noop_when_guesses_exhausted e action :
  current_guess_count e >= max_guesses e →
  step action e = (e, Ok (_get_obs e, PyInt 0, true, false, _get_info e)) ∧
  ∀ actions, run_steps actions e = e.
Proof.
  intros H. split; [by apply step_exhausted|].
  induction actions as [|a l IH]; [done|]. simpl.
  by rewrite step_exhausted.
Qed.

Lemma step_noop_when_guesses_exhausted_witness :
  let e := set_current_guess_count 6 demo_episode in
  step 1 e = (e, Ok (_get_obs e, PyInt 0, true, false, _get_info e)) ∧
  ∀ actions, run_steps actions e = e.
Proof.
  apply (step_noop_when_guesses_exhausted
           (set_current_guess_count 6 demo_episode) 1).
  vm_compute. discriminate.
Defined.

(** C2 as stated fails after a win with guesses left: guessing the secret
    "allow" ends the episode, yet the next call scores "crane" as an
    ordinary guess, answers reward -0.1 and terminated false, and moves the
    count to 2. *)
Lemma step_after_win_plays_on :
  ∃ e1 obs1 info1 e2 obs2 info2,
    step 0 demo_episode = (e1, Ok (obs1, PyFloat 1.0%float, true, false, info1)) ∧
    step 1 e1 = (e2, Ok (obs2, PyFloat (-0.1)%float, false, false, info2)) ∧
    current_guess_count e1 = 1 ∧ current_guess_count e2 = 2 ∧
    obs2 ≠ obs1.
Proof.
  do 6 eexists. split; [vm_compute; reflexivity|].
  split; [vm_compute; reflexivity|].
  split; [reflexivity|]. split; [reflexivity|]. discriminate.
Qed.

(** C3, as the code has it.  With guesses left, an action at or beyond the
    number of words, or below its negation, makes [step] raise [IndexError]
    before anything is written: the state is the one before the call.  An
    action in between that is negative is not an error: Python's indexing
    counts it from the end of the word list.  With no guesses left the call
    is the no-op, whatever the action. *)
Theorem step_action_out_of_range e action :
  ¬ (0 ≤ action < Z.of_nat (length (word_list e))) →
  (current_guess_count e < max_guesses e →
   action < - Z.of_nat (length (word_list e))
   ∨ Z.of_nat (length (word_list e)) ≤ action →
   step action e = (e, Raise IndexError)) ∧
  (- Z.of_nat (length (word_list e)) ≤ action < 0 →
   step action e = step (action + Z.of_nat (length (word_list e))) e) ∧
  (current_guess_count e >= max_guesses e →
   step action e = (e, Ok (_get_obs e, PyInt 0, true, false, _get_info e))).
Proof.
  intros _. split; [|split].
  - intros Hc H. unfold step. erewrite bind_ok by reflexivity. unfold id.
    rewrite bool_decide_eq_false_2 by lia.
    erewrite bind_raise; [reflexivity|].
    unfold lift. by rewrite getitem_out_of_range.
  - intros H. unfold step.
    erewrite !(bind_ok (gets id)) by reflexivity. unfold id.
    by rewrite getitem_negative.
  - apply step_exhausted.
Qed.

Lemma step_action_out_of_range_witness :
  step 7 demo_episode = (demo_episode, Raise IndexError).
Proof.
  refine (proj1 (step_action_out_of_range demo_episode 7 _) _ _).
  - vm_compute. intros [_ H]. discriminate H.
  - vm_compute. reflexivity.
  - right. vm_compute. discriminate.
Defined.

(** C3 as stated fails for a negative action: -1 is outside
    [0, actionSpaceSize()), yet [step] decodes it as the last word, "slate",
    and plays it exactly as action 3. *)
Lemma step_negative_action_decodes :
  ¬ (0 ≤ -1 < Z.of_nat (length (word_list demo_episode))) ∧
  step (-1) demo_episode = step 3 demo_episode ∧
  ∃ e' res, step (-1) demo_episode = (e', Ok res) ∧
            guess_history e' = ["slate"] ∧ current_guess_count e' = 1 ∧
            e' ≠ demo_episode.
Proof.
  split; [intros [H _]; by apply H|].
  split; [vm_compute; reflexivity|].
  do 2 eexists. split; [vm_compute; reflexivity|].
  split; [reflexivity|]. split; [reflexivity|]. discriminate.
Qed.

(** C4.  Over any run of [step] calls inside one episode, returned or
    raised, every letter's status only moves up the tiers
    UNUSED < GRAY/YELLOW < GREEN: a GREEN stays GREEN, a YELLOW never becomes
    GRAY or UNUSED, and a status that is GRAY afterwards was UNUSED or
    already GRAY before. *)
Theorem alphabet_status_monotone e actions :
  Forall2 (λ old new,
             tier old ≤ tier new ∧
             (old = GREEN → new = GREEN) ∧
             (old = YELLOW → new ≠ GRAY ∧ new ≠ EMPTY) ∧
             (new = GRAY → old = EMPTY ∨ old = GRAY))
          (alphabet_status e) (alphabet_status (run_steps actions e)).
Proof.
  destruct (run_steps_same_game actions e) as (_ & _ & _ & _ & H).
  eapply Forall2_impl; [exact H|]. intros old new. apply promoted_facts.
Qed.

(** C5, as the code has it.  Inside an episode with guesses left, when the
    decoded guess is the secret word and every character of it indexes the
    statuses, as every lowercase letter does, [step] returns feedback GREEN
    at every one of the [word_length] positions, reward 1.0 and terminated
    true.  When the secret has any other character, guessing it is no win:
    [step] counts the guess and raises [IndexError]. *)
Theorem step_secret_guess_wins e action :
  in_episode e →
  current_guess_count e < max_guesses e →
  0 ≤ action < Z.of_nat (length (word_list e)) →
  word_list e !! Z.to_nat action = Some (secret_word e) →
  (Forall status_char (chars (secret_word e)) →
   ∃ e' obs info,
     step action e = (e', Ok (obs, PyFloat 1.0%float, true, false, info)) ∧
     obs_last_feedback obs = replicate (Z.to_nat (word_length e)) GREEN) ∧
  (¬ Forall status_char (chars (secret_word e)) →
   ∃ e', step action e = (e', Raise IndexError) ∧
         current_guess_count e' = current_guess_count e + 1).
Proof.
  intros He Hc [H0 _] Hg.
  pose proof (getitem_in_range _ _ _ H0 Hg) as Hget.
  split; [|by apply step_raises_index].
  intros Hsc.
  destruct (step_run_in_episode action _ e He Hc Hget Hsc)
    as (e' & E & Hfb & _).
  destruct He as (_ & Hsl & _).
  rewrite bool_decide_eq_true_2 in E by done.
  do 3 eexists. split; [exact E|]. simpl.
  rewrite Hfb, two_pass_score_self. f_equal. unfold len in Hsl. lia.
Qed.

Lemma step_secret_guess_wins_witness :
  ∃ e' obs info,
    step 0 demo_episode = (e', Ok (obs, PyFloat 1.0%float, true, false, info)) ∧
    obs_last_feedback obs = replicate (Z.to_nat (word_length demo_episode)) GREEN.
Proof.
  refine (proj1 (step_secret_guess_wins demo_episode 0 _ _ _ _) _).
  - exact (episode_state_in_episode _ demo_episode_state).
  - vm_compute. reflexivity.
  - vm_compute. split; [discriminate|reflexivity].
  - reflexivity.
  - change (secret_word demo_episode) with "allow".
    unfold chars. cbn [list_ascii_of_string].
    repeat first [apply Forall_nil_2 | apply Forall_cons; split];
      vm_compute; (split; [discriminate|reflexivity]).
Defined.

(** C5 as stated fails when the secret is not made of letters.  After a
    reset that draws "can't", the object built from "crane", "can't" and
    "slate" is in a non-terminal episode state, and action 0 decodes the
    secret itself; [step] does not return all-GREEN feedback with reward
    1.0: it raises [IndexError] at the apostrophe, leaving the guess
    counted, the three letters before it GREEN in the alphabet and the last
    feedback as it was. *)
Lemma step_non_letter_secret_no_win :
  reachable (apostrophe_episode 0) ∧ in_episode (apostrophe_episode 0) ∧
  secret_word (apostrophe_episode 0) = "can't" ∧
  current_guess_count (apostrophe_episode 0)
  < max_guesses (apostrophe_episode 0) ∧
  0 ≤ 0 < Z.of_nat (length (word_list (apostrophe_episode 0))) ∧
  word_list (apostrophe_episode 0) !! Z.to_nat 0
  = Some (secret_word (apostrophe_episode 0)) ∧
  (∃ e', step 0 (apostrophe_episode 0) = (e', Raise IndexError) ∧
         current_guess_count e' = 1 ∧
         last_feedback e' = replicate 5 EMPTY ∧
         alphabet_status e' !! 2%nat = Some GREEN) ∧
  ¬ ∃ e' obs info,
      step 0 (apostrophe_episode 0)
      = (e', Ok (obs, PyFloat 1.0%float, true, false, info)).
Proof.
  assert (reachable (apostrophe_episode 0)) as Hr
    by apply apostrophe_episode_reachable.
  split; [exact Hr|]. split; [by apply reachable_in_episode|].
  split; [reflexivity|]. split; [vm_compute; reflexivity|].
  split; [vm_compute; split; [discriminate|reflexivity]|].
  split; [reflexivity|].
  assert (step 0 (apostrophe_episode 0)
          = ((step 0 (apostrophe_episode 0)).1, Raise IndexError)) as E
    by (vm_compute; reflexivity).
  split.
  - eexists. split; [exact E|]. repeat split.
  - intros (e' & obs & info & E'). rewrite E in E'. discriminate E'.
Qed.

(** C6, as the code has it.  Inside an episode with guesses left, when the
    decoded guess is not the secret word and every character of it indexes
    the statuses, as every lowercase letter does: if the guess is the last
    one allowed, [step] returns reward -1.0 and terminated true, otherwise
    reward -0.1 and terminated false.  When the guess has any other
    character, [step] returns neither: it counts the guess and raises
    [IndexError].  Whenever [step] returns, in any state and for any action,
    truncated is false. *)
Theorem step_wrong_guess_reward e action guess :
  in_episode e →
  current_guess_count e < max_guesses e →
  0 ≤ action < Z.of_nat (length (word_list e)) →
  word_list e !! Z.to_nat action = Some guess →
  guess ≠ secret_word e →
  (Forall status_char (chars guess) →
   ∃ e' obs info,
     step action e
     = (e', Ok (obs,
                (if bool_decide (current_guess_count e + 1 = max_guesses e)
                 then PyFloat (-1.0)%float else PyFloat (-0.1)%float),
                bool_decide (current_guess_count e + 1 = max_guesses e),
                false, info)) ∧
     current_guess_count e' = current_guess_count e + 1) ∧
  (¬ Forall status_char (chars guess) →
   ∃ e', step action e = (e', Raise IndexError) ∧
         current_guess_count e' = current_guess_count e + 1) ∧
  (∀ e0 a e' obs reward terminated truncated info,
     step a e0 = (e', Ok (obs, reward, terminated, truncated, info)) →
     truncated = false).
Proof.
  intros He Hc [H0 _] Hg Hne.
  pose proof (getitem_in_range _ _ _ H0 Hg) as Hget.
  split; [|split; [by apply step_raises_index|]].
  - intros Hsc.
    destruct (step_run_in_episode action guess e He Hc Hget Hsc)
      as (e' & E & _ & Hcnt & _).
    rewrite (bool_decide_eq_false_2 (guess = secret_word e)) in E by done.
    simpl in E. exists e'. do 2 eexists. split; [|exact Hcnt].
    rewrite E. by case_bool_decide.
  - intros e0 a e' obs reward terminated truncated info E.
    pose proof (step_cases a e0) as H. rewrite E in H. simpl in H.
    inversion H; reflexivity.
Qed.

Lemma step_wrong_guess_reward_witness :
  ∃ e' obs info,
    step 1 demo_last_turn
    = (e', Ok (obs,
               (if bool_decide (current_guess_count demo_last_turn + 1
                                = max_guesses demo_last_turn)
                then PyFloat (-1.0)%float else PyFloat (-0.1)%float),
               bool_decide (current_guess_count demo_last_turn + 1
                            = max_guesses demo_last_turn),
               false, info)) ∧
    current_guess_count e' = current_guess_count demo_last_turn + 1.
Proof.
  refine (proj1 (step_wrong_guess_reward demo_last_turn 1 "crane"
                   _ _ _ _ _) _).
  - exact (episode_state_in_episode _ demo_last_turn_state).
  - vm_compute. reflexivity.
  - vm_compute. split; [discriminate|reflexivity].
  - reflexivity.
  - vm_compute. discriminate.
  - unfold chars. cbn [list_ascii_of_string].
    repeat first [apply Forall_nil_2 | apply Forall_cons; split];
      vm_compute; (split; [discriminate|reflexivity]).
Defined.

(** C6 as stated fails on a wrong guess that is not made of letters.  With
    the secret "slate" and one wrong guess, "crane", already answered with
    reward -0.1, the state is a non-terminal episode state with five guesses
    left; action 0 decodes "can't", which is not the secret, and [step]
    returns no reward and no terminated flag: it raises [IndexError], with
    the count moved to 2. *)
Lemma step_non_letter_wrong_guess_no_reward :
  reachable (step 1 (apostrophe_episode 2)).1 ∧
  in_episode (step 1 (apostrophe_episode 2)).1 ∧
  secret_word (step 1 (apostrophe_episode 2)).1 = "slate" ∧
  current_guess_count (step 1 (apostrophe_episode 2)).1 = 1 ∧
  max_guesses (step 1 (apostrophe_episode 2)).1 = 6 ∧
  0 ≤ 0 < Z.of_nat (length (word_list (step 1 (apostrophe_episode 2)).1)) ∧
  word_list (step 1 (apostrophe_episode 2)).1 !! Z.to_nat 0 = Some "can't" ∧
  "can't" ≠ secret_word (step 1 (apostrophe_episode 2)).1 ∧
  (∃ e', step 0 (step 1 (apostrophe_episode 2)).1 = (e', Raise IndexError) ∧
         current_guess_count e' = 2) ∧
  ¬ ∃ e' obs reward terminated truncated info,
      step 0 (step 1 (apostrophe_episode 2)).1
      = (e', Ok (obs, reward, terminated, truncated, info)).
Proof.
  assert (reachable (step 1 (apostrophe_episode 2)).1) as Hr
    by apply reach_step, apostrophe_episode_reachable.
  split; [exact Hr|]. split; [by apply reachable_in_episode|].
  split; [reflexivity|]. split; [reflexivity|]. split; [reflexivity|].
  split; [vm_compute; split; [discriminate|reflexivity]|].
  split; [reflexivity|]. split; [discriminate|].
  assert (step 0 (step 1 (apostrophe_episode 2)).1
          = ((step 0 (step 1 (apostrophe_episode 2)).1).1, Raise IndexError))
    as E by (vm_compute; reflexivity).
  split.
  - eexists. split; [exact E|reflexivity].
  - intros (e' & obs & reward & terminated & truncated & info & E').
    rewrite E in E'. discriminate E'.
Qed.

(** C7.  On any reachable object [reset] returns, and afterwards the
    observation has [word_length] zeros (all EMPTY) as last feedback, 26
    zeros (all UNUSED) as alphabet status and [max_guesses] guesses
    remaining; the guess count is 0, both histories are empty, and the
    secret is a word drawn from the list. *)
Theorem reset_observation e draw :
  reachable e →
  ∃ e' obs info,
    reset draw e = (e', Ok (obs, info)) ∧
    obs_last_feedback obs = replicate (Z.to_nat (word_length e)) EMPTY ∧
    mark_code <$> obs_last_feedback obs
    = replicate (Z.to_nat (word_length e)) 0 ∧
    obs_alphabet_status obs = replicate 26 EMPTY ∧
    mark_code <$> obs_alphabet_status obs = replicate 26 0 ∧
    obs_guesses_remaining obs = max_guesses e ∧
    current_guess_count e' = 0 ∧
    guess_history e' = [] ∧ feedback_history e' = [] ∧
    info_guesses_made info = 0 ∧ info_guess_history info = [] ∧
    ∃ w, w ∈ word_list e ∧ secret_word e' = rstrip_nul w.
Proof.
  intros (Hwl & HL & _)%reachable_configured.
  destruct (reset_run draw e Hwl HL) as (w & Hw & E). cbv zeta in E.
  do 3 eexists. split; [exact E|]. simpl.
  rewrite fmap_replicate. repeat split; eauto. lia.
Qed.

Lemma reset_observation_witness :
  ∃ e' obs info,
    reset 3 demo_env = (e', Ok (obs, info)) ∧
    obs_last_feedback obs = replicate (Z.to_nat (word_length demo_env)) EMPTY ∧
    mark_code <$> obs_last_feedback obs
    = replicate (Z.to_nat (word_length demo_env)) 0 ∧
    obs_alphabet_status obs = replicate 26 EMPTY ∧
    mark_code <$> obs_alphabet_status obs = replicate 26 0 ∧
    obs_guesses_remaining obs = max_guesses demo_env ∧
    current_guess_count e' = 0 ∧
    guess_history e' = [] ∧ feedback_history e' = [] ∧
    info_guesses_made info = 0 ∧ info_guess_history info = [] ∧
    ∃ w, w ∈ word_list demo_env ∧ secret_word e' = rstrip_nul w.
Proof.
  apply (reset_observation demo_env 3).
  apply (reach_init demo_words 5 6). vm_compute. reflexivity.
Defined.

(** C8.  In every state reachable by construction followed by any calls of
    [reset] and [step], the guess count is between 0 and [max_guesses], so
    the guesses remaining are never negative; and a [step] with an in-range
    action taken while guesses are left lowers the guesses remaining by
    exactly 1, in the state and in the observation it returns. *)
Theorem guesses_remaining_invariant e :
  reachable e →
  0 ≤ current_guess_count e ≤ max_guesses e ∧
  0 ≤ obs_guesses_remaining (_get_obs e) ≤ max_guesses e ∧
  ∀ action,
    current_guess_count e < max_guesses e →
    0 ≤ action < Z.of_nat (length (word_list e)) →
    obs_guesses_remaining (_get_obs (step action e).1)
    = obs_guesses_remaining (_get_obs e) - 1 ∧
    0 ≤ obs_guesses_remaining (_get_obs (step action e).1) ∧
    ∀ e' obs reward terminated truncated info,
      step action e = (e', Ok (obs, reward, terminated, truncated, info)) →
      obs_guesses_remaining obs = obs_guesses_remaining (_get_obs e) - 1.
Proof.
  intros (_ & _ & Hc)%reachable_configured.
  split; [exact Hc|]. split; [simpl; lia|].
  intros action Hlt Hrange.
  assert (∃ w, getitem (word_list e) action = Ok w) as [w Hw].
  { destruct (lookup_lt_is_Some_2 (word_list e) (Z.to_nat action)) as [w Hw];
      [lia|]. exists w. apply getitem_in_range; [lia|exact Hw]. }
  pose proof (step_cases action e) as H.
  destruct (step action e) as [e1 r] eqn:E. simpl in *.
  assert (current_guess_count e1 = current_guess_count e + 1
          ∧ max_guesses e1 = max_guesses e) as [Hc1 Hm1].
  { destruct H as [?|x ? Hx|g e1 x ? ? Hsc|g e1 fb ? ? Hsc]; try lia.
    - congruence.
    - by apply scoring_count in Hsc as [-> ->].
    - apply scoring_count in Hsc as [Hc1 Hm1]. simpl. auto. }
  rewrite Hc1, Hm1. repeat split; try lia.
  intros e' obs reward terminated truncated info [= <- ->].
  inversion H; subst;
    repeat match goal with x := _ |- _ => subst x end; simpl in *; lia.
Qed.

Lemma guesses_remaining_invariant_witness :
  0 ≤ current_guess_count demo_episode ≤ max_guesses demo_episode ∧
  0 ≤ obs_guesses_remaining (_get_obs demo_episode)
  ≤ max_guesses demo_episode ∧
  ∀ action,
    current_guess_count demo_episode < max_guesses demo_episode →
    0 ≤ action < Z.of_nat (length (word_list demo_episode)) →
    obs_guesses_remaining (_get_obs (step action demo_episode).1)
    = obs_guesses_remaining (_get_obs demo_episode) - 1 ∧
    0 ≤ obs_guesses_remaining (_get_obs (step action demo_episode).1) ∧
    ∀ e' obs reward terminated truncated info,
      step action demo_episode
      = (e', Ok (obs, reward, terminated, truncated, info)) →
      obs_guesses_remaining obs
      = obs_guesses_remaining (_get_obs demo_episode) - 1.
Proof.
  apply (guesses_remaining_invariant demo_episode).
  apply reach_reset. apply (reach_init demo_words 5 6). vm_compute.
  reflexivity.
Defined.

(** C9.  Construction from a raw collection and a length L raises
    [ValueError] when the collection is empty or holds no word of length L.
    When it returns, the word list holds exactly the lowercased input words
    of length L, without duplicates and in ascending lexicographic order;
    and when a word of length L exists it returns exactly when the guess
    limit is one that [Discrete(max_guesses + 1)] accepts, from 0 to
    2^63 - 2. *)
Theorem init_word_list custom_words L G :
  (custom_words = [] ∨ (∀ w, w ∈ custom_words → len w ≠ L) →
   __init__ custom_words L G = Raise ValueError) ∧
  (∀ e, __init__ custom_words L G = Ok e →
     (∀ x, x ∈ word_list e ↔
           ∃ w, w ∈ custom_words ∧ len w = L ∧ x = lower w) ∧
     NoDup (word_list e) ∧
     StronglySorted String.le (word_list e) ∧
     word_list e ≠ []) ∧
  ((∃ w, w ∈ custom_words ∧ len w = L) →
   ((∃ e, __init__ custom_words L G = Ok e) ↔ 0 ≤ G < 2 ^ 63 - 1)).
Proof.
  split; [apply init_raises|]. split.
  - intros e (_ & Hv & _ & _ & ->)%init_Ok. simpl.
    split; [apply vocabulary_elem|].
    auto using vocabulary_NoDup, vocabulary_sorted.
  - intros (w & Hw & Hl). split.
    + intros [e (_ & _ & HG & _)%init_Ok]. exact HG.
    + intros HG. eexists. apply init_Ok.
      split_and!; [| |lia|lia|unfold len in Hl; lia|reflexivity].
      * intros ->. by apply elem_of_nil in Hw.
      * intros Hn. rewrite vocabulary_nil in Hn. by apply (Hn w).
Qed.

Lemma init_word_list_witness :
  (∀ x, x ∈ word_list demo_env ↔
        ∃ w, w ∈ demo_words ∧ len w = 5 ∧ x = lower w) ∧
  NoDup (word_list demo_env) ∧
  StronglySorted String.le (word_list demo_env) ∧
  word_list demo_env ≠ [].
Proof.
  apply (proj1 (proj2 (init_word_list demo_words 5 6)) demo_env).
  vm_compute. reflexivity.
Defined.

(** C10.  A call of [step], with any action and whether it returns or
    raises, leaves [secret_word], [word_list], [word_length] and
    [max_guesses] as they were, and so does any run of such calls; [reset]
    leaves the last three as they were and is the only one to write the
    secret, which it draws from the word list. *)
Theorem step_frame e action actions draw :
  (secret_word (step action e).1 = secret_word e ∧
   word_list (step action e).1 = word_list e ∧
   word_length (step action e).1 = word_length e ∧
   max_guesses (step action e).1 = max_guesses e) ∧
  (secret_word (run_steps actions e) = secret_word e ∧
   word_list (run_steps actions e) = word_list e ∧
   word_length (run_steps actions e) = word_length e ∧
   max_guesses (run_steps actions e) = max_guesses e) ∧
  (word_list (reset draw e).1 = word_list e ∧
   word_length (reset draw e).1 = word_length e ∧
   max_guesses (reset draw e).1 = max_guesses e ∧
   (secret_word (reset draw e).1 = secret_word e ∨
    ∃ w, w ∈ word_list e ∧ secret_word (reset draw e).1 = rstrip_nul w)).
Proof.
  destruct (step_same_game action e) as (H1 & H2 & H3 & H4 & _).
  destruct (run_steps_same_game actions e) as (R1 & R2 & R3 & R4 & _).
  destruct (reset_frame draw e) as (F1 & F2 & F3 & _).
  repeat split; auto.
  unfold reset. erewrite bind_ok by reflexivity.
  destruct (choice (word_list e) draw) as [w|x] eqn:Hw.
  2:{ erewrite bind_raise by reflexivity. simpl. auto. }
  assert (∃ w0, w0 ∈ word_list e ∧ w = rstrip_nul w0) as Hin.
  { unfold choice in Hw. destruct (_ !! _) as [w0|] eqn:El; [|done].
    injection Hw as <-. eauto using list_elem_of_lookup_2. }
  erewrite bind_ok by reflexivity.
  erewrite !bind_ok by reflexivity.
  destruct (np_zeros (word_length e)) as [z|x] eqn:Hz.
  2:{ erewrite bind_raise by (unfold lift; simpl; rewrite Hz; done).
      simpl. auto. }
  erewrite bind_ok by (unfold lift; simpl; rewrite Hz; done).
  erewrite !bind_ok by reflexivity. simpl. auto.
Qed.

(** * Further properties *)

(** ** More about the two-pass rule *)





















(** ** What every reachable state hands out *)

Lemma mark_code_range (l : list mark) : Forall (λ m, 0 ≤ mark_code m ≤ 3) l.
Proof. apply Forall_forall. intros [] _; simpl; lia. Qed.

Lemma reachable_obs_in_space e :
  reachable e → in_observation_space e (_get_obs e).
Proof.
  intros Hr. destruct (reachable_recorded e Hr) as (H1 & H2 & _).
  destruct (reachable_configured e Hr) as (_ & _ & Hc).
  unfold in_observation_space. simpl.
  split_and!; auto using mark_code_range; lia.
Qed.

(** [step] and [reset] hand out the observation of the state they leave. *)
Lemma step_returns_obs action e e' obs reward terminated truncated info :
  step action e = (e', Ok (obs, reward, terminated, truncated, info)) →
  obs = _get_obs e' ∧ info = _get_info e'.
Proof.
  intros E. pose proof (step_cases action e) as H. rewrite E in H.
  simpl in H. inversion H; subst; done.
Qed.

Lemma reset_returns_obs draw e e' obs info :
  reset draw e = (e', Ok (obs, info)) →
  obs = _get_obs e' ∧ info = _get_info e'.
Proof.
  unfold reset. erewrite bind_ok by reflexivity.
  unfold mbind at 1. unfold M_bind, lift.
  destruct (choice _ _) as [w|]; [|done].
  erewrite !bind_ok by reflexivity.
  unfold mbind at 1. unfold M_bind, lift.
  destruct (np_zeros _) as [z|]; [|done].
  erewrite !bind_ok by reflexivity. by intros [= <- <- <-].
Qed.

(** X4.  Every observation the object hands out lies in the observation
    space it declared at construction: [word_length] feedback marks and 26
    status marks, all between 0 and 3, and a number of guesses remaining
    between 0 and [max_guesses].  This holds for the observation of every
    reachable state and for whatever [step] or [reset] return from it. *)
Theorem observations_in_space e :
  reachable e →
  in_observation_space e (_get_obs e) ∧
  (∀ action e' obs reward terminated truncated info,
     step action e = (e', Ok (obs, reward, terminated, truncated, info)) →
     in_observation_space e obs) ∧
  (∀ draw e' obs info,
     reset draw e = (e', Ok (obs, info)) → in_observation_space e obs).
Proof.
  intros Hr. split; [by apply reachable_obs_in_space|]. split.
  - intros action e' obs reward terminated truncated info E.
    destruct (step_returns_obs _ _ _ _ _ _ _ _ E) as [-> _].
    pose proof (reachable_obs_in_space _ (reach_step e action Hr)) as H.
    destruct (step_same_game action e) as (HL & HG & _).
    rewrite E in H, HL, HG. simpl in H, HL, HG.
    unfold in_observation_space in *. by rewrite <- HL, <- HG.
  - intros draw e' obs info E.
    destruct (reset_returns_obs _ _ _ _ _ E) as [-> _].
    pose proof (reachable_obs_in_space _ (reach_reset e draw Hr)) as H.
    destruct (reset_frame draw e) as (HL & HG & _).
    rewrite E in H, HL, HG. simpl in H, HL, HG.
    unfold in_observation_space in *. by rewrite <- HL, <- HG.
Qed.

Lemma observations_in_space_witness :
  in_observation_space demo_episode (_get_obs demo_episode) ∧
  (∀ action e' obs reward terminated truncated info,
     step action demo_episode
     = (e', Ok (obs, reward, terminated, truncated, info)) →
     in_observation_space demo_episode obs) ∧
  (∀ draw e' obs info,
     reset draw demo_episode = (e', Ok (obs, info)) →
     in_observation_space demo_episode obs).
Proof.
  apply (observations_in_space demo_episode).
  apply reach_reset. apply (reach_init demo_words 5 6). vm_compute.
  reflexivity.
Defined.

(** X5.  In every reachable state the records of the episode agree with one
    another: the two histories have the same length, which is at most the
    guess count; every recorded guess is a word of the list; every recorded
    feedback has [word_length] marks, none EMPTY; and [last_feedback] is the
    last recorded feedback, or all EMPTY while nothing is recorded. *)
Theorem histories_recorded e :
  reachable e →
  length (guess_history e) = length (feedback_history e) ∧
  Z.of_nat (length (guess_history e)) ≤ current_guess_count e ∧
  Forall (λ w, w ∈ word_list e) (guess_history e) ∧
  Forall (λ fb, length fb = Z.to_nat (word_length e) ∧ EMPTY ∉ fb)
         (feedback_history e) ∧
  (feedback_history e = [] ∧
   last_feedback e = replicate (Z.to_nat (word_length e)) EMPTY
   ∨ last (feedback_history e) = Some (last_feedback e)).
Proof.
  intros (_ & _ & H3 & H4 & H5 & H6 & H7)%reachable_recorded.
  split_and!; auto.
  - eapply Forall_impl; [exact H5|]. by intros w [? _].
  - eapply Forall_impl; [exact H6|]. intros fb [? Hne]. split; [done|].
    rewrite Forall_forall in Hne. intros Hin. by apply (Hne _ Hin).
Qed.

Lemma histories_recorded_witness :
  let e := run_steps [2; 1] demo_episode in
  length (guess_history e) = length (feedback_history e) ∧
  Z.of_nat (length (guess_history e)) ≤ current_guess_count e ∧
  Forall (λ w, w ∈ word_list e) (guess_history e) ∧
  Forall (λ fb, length fb = Z.to_nat (word_length e) ∧ EMPTY ∉ fb)
         (feedback_history e) ∧
  (feedback_history e = [] ∧
   last_feedback e = replicate (Z.to_nat (word_length e)) EMPTY
   ∨ last (feedback_history e) = Some (last_feedback e)).
Proof.
  apply (histories_recorded (run_steps [2; 1] demo_episode)).
  simpl. do 2 apply reach_step. apply reach_reset.
  apply (reach_init demo_words 5 6). vm_compute. reflexivity.
Defined.

(** X6.  Whenever a [step] with guesses left returns, the alphabet status it
    reports covers the feedback it reports: for every position, the status
    of the guessed letter is at least the mark of that position (GREEN for a
    GREEN, YELLOW or GREEN for a YELLOW), and never UNUSED. *)
Theorem step_status_covers_feedback e action guess e' obs reward terminated
    truncated info :
  current_guess_count e < max_guesses e →
  getitem (word_list e) action = Ok guess →
  step action e = (e', Ok (obs, reward, terminated, truncated, info)) →
  ∀ i g m,
    chars guess !! i = Some g → obs_last_feedback obs !! i = Some m →
    ∃ s, getitem (obs_alphabet_status obs) (_letter_to_int g) = Ok s ∧
         mark_code m ≤ mark_code s ∧ s ≠ EMPTY.
Proof.
  intros Hc Hg E i g m Hi Hm.
  pose proof (step_cases action e) as H. rewrite E in H. simpl in H.
  inversion H as [?|?|?|guess' e1 fb _ Hg' Hsc]; subst; [lia|].
  rewrite Hg in Hg'. injection Hg' as <-.
  apply scoring_inv in Hsc as (_ & _ & Hne & _ & _ & Hcov).
  simpl in Hm. destruct (Hcov i g m Hi Hm) as (s & Hs & Hle).
  exists s. simpl. split_and!; auto.
  rewrite Forall_forall in Hne.
  pose proof (Hne m (list_elem_of_lookup_2 _ _ _ Hm)).
  destruct m, s; simpl in *; try done; lia.
Qed.

Lemma step_status_covers_feedback_witness :
  ∃ s, getitem (obs_alphabet_status (_get_obs (step 2 demo_episode).1))
               (_letter_to_int "l") = Ok s ∧
       mark_code YELLOW ≤ mark_code s ∧ s ≠ EMPTY.
Proof.
  refine (step_status_covers_feedback demo_episode 2 "lolly"
            (step 2 demo_episode).1 (_get_obs (step 2 demo_episode).1)
            (PyFloat (-0.1)) false false (_get_info (step 2 demo_episode).1)
            _ _ _ 0%nat "l"%char YELLOW _ _).
  - vm_compute. reflexivity.
  - reflexivity.
  - vm_compute. reflexivity.
  - reflexivity.
  - vm_compute. reflexivity.
Defined.

(** ** Reset starts from the configuration alone *)

Lemma reset_unfold draw e :
  reset draw e
  = match choice (word_list e) draw with
    | Raise x => (e, Raise x)
    | Ok w =>
        match np_zeros (word_length e) with
        | Raise x =>
            (set_current_guess_count 0 (set_secret_word w e), Raise x)
        | Ok z =>
            let e' := mkEnv (word_length e) (max_guesses e) (word_list e) w 0
                        z (replicate 26 EMPTY) [] [] in
            (e', Ok (_get_obs e', _get_info e'))
        end
    end.
Proof.
  unfold reset. erewrite bind_ok by reflexivity.
  destruct (choice (word_list e) draw) as [w|x].
  2:{ by erewrite bind_raise by reflexivity. }
  erewrite !bind_ok by reflexivity.
  destruct (np_zeros (word_length e)) as [z|x] eqn:Hz.
  2:{ by erewrite bind_raise by (unfold lift; simpl; rewrite Hz; done). }
  erewrite bind_ok by (unfold lift; simpl; rewrite Hz; done).
  by erewrite !bind_ok by reflexivity.
Qed.

Lemma reset_config_only draw e e' :
  word_list e ≠ [] → 0 ≤ word_length e →
  word_length e' = word_length e → max_guesses e' = max_guesses e →
  word_list e' = word_list e →
  reset draw e' = reset draw e.
Proof.
  intros Hwl HL E1 E2 E3. rewrite !reset_unfold, E1, E2, E3.
  destruct (choice_Ok (word_list e) draw Hwl) as (w & -> & _).
  unfold np_zeros, np_full. by rewrite bool_decide_eq_false_2 by lia.
Qed.

Lemma run_call_config c e :
  word_length (run_call c e) = word_length e ∧
  max_guesses (run_call c e) = max_guesses e ∧
  word_list (run_call c e) = word_list e.
Proof.
  destruct c as [action|draw]; simpl.
  - destruct (step_same_game action e) as (?&?&?&_). auto.
  - destruct (reset_frame draw e) as (?&?&?&_). auto.
Qed.

Lemma run_calls_config calls : ∀ e,
  word_length (run_calls calls e) = word_length e ∧
  max_guesses (run_calls calls e) = max_guesses e ∧
  word_list (run_calls calls e) = word_list e.
Proof.
  induction calls as [|c calls IH]; intros e; simpl; [done|].
  destruct (IH (run_call c e)) as (-> & -> & ->). apply run_call_config.
Qed.

Lemma run_calls_reachable calls : ∀ e,
  reachable e → reachable (run_calls calls e).
Proof.
  induction calls as [|c calls IH]; intros e Hr; simpl; [done|].
  apply IH. destruct c; simpl; by constructor.
Qed.

(** X7.  [reset] wipes the episode: after any calls on a constructed
    object, a reset returns the same observation and information and leaves
    the same state as the same reset on the object as it was; only the word
    list, the two limits and the draw decide the outcome. *)
Theorem reset_forgets e calls draw :
  reachable e →
  reset draw (run_calls calls e) = reset draw e.
Proof.
  intros (Hwl & HL & _)%reachable_configured.
  destruct (run_calls_config calls e) as (E1 & E2 & E3).
  by apply reset_config_only.
Qed.

Lemma reset_forgets_witness :
  reset 1 (run_calls [Step 2; Step 7; Reset 3; Step 0] demo_env)
  = reset 1 demo_env.
Proof.
  apply (reset_forgets demo_env [Step 2; Step 7; Reset 3; Step 0] 1).
  apply (reach_init demo_words 5 6). vm_compute. reflexivity.
Defined.

(** ** Play over an alphabetic vocabulary *)

Lemma episode_state_configured e :
  episode_state e → word_list e ≠ [] ∧ 0 ≤ word_length e.
Proof.
  intros (Hwl & Hsec & _). split.
  - intros Hn. rewrite Hn in Hsec. by apply elem_of_nil in Hsec.
  - rewrite Forall_forall in Hwl. destruct (Hwl _ Hsec) as [<- _].
    unfold len. lia.
Qed.

Lemma episode_state_reset draw e :
  episode_state e → episode_state (reset draw e).1.
Proof.
  intros He. destruct (episode_state_configured e He) as [Hne HL].
  destruct He as (Hwl & _ & _).
  destruct (reset_run draw e Hne HL) as (w & Hw & E). cbv zeta in E.
  rewrite E. unfold episode_state. simpl. split_and!; auto.
  rewrite rstrip_nul_id; [done|].
  rewrite Forall_forall in Hwl. destruct (Hwl _ Hw) as [_ Hlow].
  eapply Forall_impl; [exact Hlow|]. apply lower_letter_not_nul.
Qed.

(** A reset of a constructed object over an alphabetic vocabulary starts an
    episode, whatever was called before. *)
Lemma init_alphabetic ws L G e :
  Forall (λ w, Forall is_letter (chars w)) ws →
  __init__ ws L G = Ok e → alphabetic e.
Proof.
  intros Hws (_ & _ & _ & _ & ->)%init_Ok. unfold alphabetic. simpl.
  apply Forall_forall. intros x (w0 & Hw0 & Hl & ->)%vocabulary_elem.
  rewrite len_lower, chars_lower. split; [done|].
  rewrite Forall_forall in Hws. specialize (Hws _ Hw0).
  apply Forall_fmap. eapply Forall_impl; [exact Hws|].
  intros c. apply lower_char_letter.
Qed.

Lemma run_calls_alphabetic calls e :
  alphabetic e → alphabetic (run_calls calls e).
Proof.
  unfold alphabetic.
  by destruct (run_calls_config calls e) as (-> & _ & ->).
Qed.

Lemma alphabetic_reset draw e :
  reachable e → alphabetic e → episode_state (reset draw e).1.
Proof.
  intros (Hne & HL & _)%reachable_configured Hwl.
  destruct (reset_run draw e Hne HL) as (w & Hw & E). cbv zeta in E.
  rewrite E. unfold episode_state. simpl. split_and!; auto.
  rewrite rstrip_nul_id; [done|].
  unfold alphabetic in Hwl. rewrite Forall_forall in Hwl.
  destruct (Hwl _ Hw) as [_ Hlow].
  eapply Forall_impl; [exact Hlow|]. apply lower_letter_not_nul.
Qed.

Lemma playing_reset draw e : playing e → playing (reset draw e).1.
Proof.
  intros (He & HL & _). split; [by apply episode_state_reset|].
  destruct (episode_state_configured e He) as [Hne _].
  destruct (reset_run draw e Hne HL) as (w & Hw & E). cbv zeta in E.
  rewrite E. simpl. done.
Qed.

Lemma playing_step action e : playing e → playing (step action e).1.
Proof.
  intros (He & HL & Hc).
  split; [by apply episode_state_step|].
  destruct (step_same_game action e) as (-> & _).
  split; [done|].
  destruct (decide (current_guess_count e < max_guesses e)) as [Hlt|Hge].
  - destruct (getitem (word_list e) action) as [guess|x] eqn:Hg.
    + destruct (step_run action guess e He Hlt Hg)
        as (e' & E & _ & Hc' & Hh' & _).
      rewrite E. simpl. rewrite Hc', Hh', length_app. simpl. lia.
    + pose proof (step_cases action e) as H.
      destruct (step action e) as [e' r]. simpl in *.
      destruct H as [?|? ? ?|? ? ? ? Hg' ?|? ? ? ? Hg' ?];
        try done; try lia; congruence.
  - rewrite step_exhausted by lia. done.
Qed.

Lemma playing_run_calls calls : ∀ e, playing e → playing (run_calls calls e).
Proof.
  induction calls as [|c calls IH]; intros e Hp; simpl; [done|].
  apply IH. destruct c; simpl; [by apply playing_step|by apply playing_reset].
Qed.

Lemma playing_step_returns action e :
  playing e →
  0 ≤ action < Z.of_nat (length (word_list e)) →
  ∃ e' res, step action e = (e', Ok res).
Proof.
  intros (He & _) [H0 Hn].
  destruct (decide (current_guess_count e < max_guesses e)) as [Hlt|Hge].
  - destruct (lookup_lt_is_Some_2 (word_list e) (Z.to_nat action)) as [w Hw];
      [lia|].
    destruct (step_run action w e He Hlt (getitem_in_range _ _ _ H0 Hw))
      as (e' & E & _). eauto.
  - rewrite step_exhausted by lia. eauto.
Qed.

(** X8.  An object built from words made of letters never fails a caller who
    stays in range: after the first reset and any further calls, the state
    is an episode state whose guess count equals the number of recorded
    guesses, [step] returns for every action in [0, number of words), and
    [reset] returns. *)
Theorem alphabetic_play_never_raises custom_words L G e0 draw calls :
  Forall (λ w, Forall is_letter (chars w)) custom_words →
  __init__ custom_words L G = Ok e0 →
  let e := run_calls calls (reset draw e0).1 in
  episode_state e ∧
  current_guess_count e = Z.of_nat (length (guess_history e)) ∧
  (∀ action, 0 ≤ action < Z.of_nat (length (word_list e)) →
             ∃ e' res, step action e = (e', Ok res)) ∧
  (∀ draw', ∃ e' res, reset draw' e = (e', Ok res)).
Proof.
  intros Hws Hinit e.
  assert (playing (reset draw e0).1) as Hp0.
  { split; [by eapply init_reset_episode_state|].
    apply init_Ok in Hinit as (_ & Hv & _ & HL & He0).
    assert (word_list e0 ≠ [] ∧ 0 ≤ word_length e0) as [Hne HL0]
      by (by rewrite He0).
    destruct (reset_run draw e0 Hne HL0) as (w & _ & E).
    cbv zeta in E. rewrite E. simpl. rewrite He0. done. }
  pose proof (playing_run_calls calls _ Hp0) as Hp. fold e in Hp.
  destruct Hp as (He & HL & Hc). split_and!; auto.
  - intros action. apply playing_step_returns. by split.
  - intros draw'. destruct (episode_state_configured e He) as [Hne _].
    destruct (reset_run draw' e Hne HL) as (w & _ & E). eauto.
Qed.

Lemma alphabetic_play_never_raises_witness :
  let e := run_calls [Step 2; Step 0; Reset 2; Step 3] (reset 0 demo_env).1 in
  episode_state e ∧
  current_guess_count e = Z.of_nat (length (guess_history e)) ∧
  (∀ action, 0 ≤ action < Z.of_nat (length (word_list e)) →
             ∃ e' res, step action e = (e', Ok res)) ∧
  (∀ draw', ∃ e' res, reset draw' e = (e', Ok res)).
Proof.
  apply (alphabetic_play_never_raises demo_words 5 6 demo_env 0
           [Step 2; Step 0; Reset 2; Step 3]).
  - unfold demo_words, chars. cbn [list_ascii_of_string].
    repeat first [apply Forall_nil_2 | apply Forall_cons; split];
      vm_compute;
      first [left; split; discriminate|right; split; discriminate].
  - vm_compute. reflexivity.
Defined.

(** ** A run of guesses *)




(** ** Construction does not depend on how the words are listed *)

(** X10.  The word list, and with it the meaning of every action index,
    depends only on which words are supplied, not on their order or on
    repetitions: two collections with the same members give the same
    object, or the same error. *)
Theorem init_order_independent custom_words custom_words' L G :
  (∀ w, w ∈ custom_words ↔ w ∈ custom_words') →
  __init__ custom_words L G = __init__ custom_words' L G.
Proof.
  intros Hsame.
  assert (vocabulary custom_words L = vocabulary custom_words' L) as Hv.
  { apply (Sorted_unique String.le).
    - apply Sorted_merge_sort; apply _.
    - apply Sorted_merge_sort; apply _.
    - apply NoDup_Permutation; try apply vocabulary_NoDup.
      intros x. rewrite !vocabulary_elem.
      split; intros (w & Hw & H); exists w; split; auto; by apply Hsame. }
  assert (custom_words = [] ↔ custom_words' = []) as Hnil.
  { split; intros ->.
    - destruct custom_words' as [|w l]; [done|].
      assert (w ∈ @nil string) as Hw by (apply Hsame; left).
      by apply elem_of_nil in Hw.
    - destruct custom_words as [|w l]; [done|].
      assert (w ∈ @nil string) as Hw by (apply Hsame; left).
      by apply elem_of_nil in Hw. }
  unfold __init__. fold (vocabulary custom_words L).
  fold (vocabulary custom_words' L). rewrite Hv.
  repeat case_bool_decide; try done; tauto.
Qed.

Lemma init_order_independent_witness :
  __init__ ["slate"; "Crane"; "slate"] 5 6
  = __init__ ["Crane"; "slate"; "Crane"; "Crane"] 5 6.
Proof.
  apply (init_order_independent ["slate"; "Crane"; "slate"]
           ["Crane"; "slate"; "Crane"; "Crane"] 5 6).
  intros w. rewrite !elem_of_cons, !elem_of_nil. tauto.
Defined.

(** ** Letters and their indices *)

(** X11.  [_int_to_letter] undoes [_letter_to_int] on every character, and
    on the indices 0 to 25 it yields a lowercase letter that
    [_letter_to_int] sends back to the index. *)
Theorem letter_index_round_trip :
  (∀ c, _int_to_letter (_letter_to_int c) = Ok (Latin1 c)) ∧
  (∀ val, 0 ≤ val < 26 →
     ∃ c, _int_to_letter val = Ok (Latin1 c) ∧ is_lower_letter c ∧
          _letter_to_int c = val).
Proof.
  split.
  - intros c. unfold _int_to_letter, _letter_to_int, chr, ord.
    replace (Z.of_nat (nat_of_ascii c) - Z.of_nat (nat_of_ascii "a")
             + Z.of_nat (nat_of_ascii "a"))
      with (Z.of_nat (nat_of_ascii c)) by lia.
    pose proof (nat_ascii_bounded c).
    rewrite bool_decide_eq_true_2 by lia.
    by rewrite Nat2Z.id, ascii_nat_embedding.
  - intros val Hval. unfold _int_to_letter, chr.
    change (ord "a") with 97.
    rewrite bool_decide_eq_true_2 by lia.
    eexists. split; [reflexivity|].
    unfold is_lower_letter, _letter_to_int, ord. change (nat_of_ascii "a") with 97%nat.
    rewrite nat_ascii_embedding by lia. lia.
Qed.

Lemma letter_index_round_trip_witness :
  ∃ c, _int_to_letter 25 = Ok (Latin1 c) ∧ is_lower_letter c ∧
       _letter_to_int c = 25.
Proof.
  apply (proj2 letter_index_round_trip 25). lia.
Defined.

(** ** Rendering *)

Lemma w_bind_ok {A B} (m : W A) (f : A → W B) out a :
  m = (out, Ok a) → (m ≫= f) = (let '(out', r) := f a in (out ++ out', r)).
Proof. intros ->. reflexivity. Qed.

Lemma guess_row_body_ok e guess fb j s g f :
  chars guess !! j = Some g → fb !! j = Some f →
  guess_row_body e guess fb j s
  = ([], Ok (s ++ guess_cell f (upper_char g))).
Proof.
  intros Hg Hf. unfold guess_row_body, w_lift, str_getitem.
  by rewrite Hg, (getitem_nat _ _ _ Hf).
Qed.

Lemma guess_row_ok e guess fb n : ∀ start s,
  (start + n ≤ length (chars guess))%nat →
  (start + n ≤ length fb)%nat →
  ∃ s', w_for_each (seq start n) (guess_row_body e guess fb) s = ([], Ok s').
Proof.
  induction n as [|n IH]; intros start s Hg Hf; simpl; [by eexists|].
  destruct (lookup_lt_is_Some_2 (chars guess) start) as [g Hgs]; [lia|].
  destruct (lookup_lt_is_Some_2 fb start) as [f Hfs]; [lia|].
  erewrite w_bind_ok by (by apply guess_row_body_ok).
  destruct (IH (S start) (s ++ guess_cell f (upper_char g))) as [s' ->];
    [lia|lia|]. by eexists.
Qed.

Lemma guess_rows_body_ok e i w fb :
  guess_history e !! i = Some w → feedback_history e !! i = Some fb →
  (Z.to_nat (word_length e) ≤ length (chars w))%nat →
  length fb = Z.to_nat (word_length e) →
  ∃ row, guess_rows_body e i tt = ([row], Ok tt).
Proof.
  intros Hw Hfb Hwl Hfl.
  destruct (guess_row_ok e w fb (Z.to_nat (word_length e)) 0%nat [])
    as [s' Hs']; [simpl; lia|simpl; lia|].
  unfold guess_rows_body, w_lift, range.
  rewrite (getitem_nat _ _ _ Hw), (getitem_nat _ _ _ Hfb). simpl.
  rewrite Hs'. simpl. by eexists.
Qed.

Lemma guess_rows_ok e n : ∀ start,
  length (guess_history e) = length (feedback_history e) →
  Forall (λ w, (Z.to_nat (word_length e) ≤ length (chars w))%nat)
         (guess_history e) →
  Forall (λ fb, length fb = Z.to_nat (word_length e)) (feedback_history e) →
  (start + n ≤ length (guess_history e))%nat →
  ∃ out, w_for_each (seq start n) (guess_rows_body e) tt = (out, Ok tt) ∧
         length out = n.
Proof.
  induction n as [|n IH]; intros start Hlen Hgs Hfs Hn; simpl;
    [by exists []|].
  destruct (lookup_lt_is_Some_2 (guess_history e) start) as [w Hw]; [lia|].
  destruct (lookup_lt_is_Some_2 (feedback_history e) start) as [fb Hfb];
    [lia|].
  pose proof Hgs as Hgs'. pose proof Hfs as Hfs'.
  rewrite Forall_forall in Hgs'. rewrite Forall_forall in Hfs'.
  destruct (guess_rows_body_ok e start w fb Hw Hfb) as [row Hrow].
  { apply Hgs'. eapply list_elem_of_lookup_2, Hw. }
  { apply Hfs'. eapply list_elem_of_lookup_2, Hfb. }
  erewrite w_bind_ok by exact Hrow.
  destruct (IH (S start)) as (out & -> & Hout); auto; [lia|].
  eexists. split; [reflexivity|]. simpl. by rewrite Hout.
Qed.

Lemma empty_rows_ok e l :
  w_for_each l (empty_rows_body e) tt
  = (replicate (length l)
       (cps "  " ++ text_times (cps "_ ") (word_length e)), Ok tt).
Proof.
  induction l as [|i l IH]; [done|].
  change (w_for_each (i :: l) (empty_rows_body e) tt)
    with (empty_rows_body e i tt
          ≫= λ a', w_for_each l (empty_rows_body e) a').
  erewrite w_bind_ok by reflexivity. by rewrite IH.
Qed.

Lemma alphabet_body_ok e i s m :
  (i < 26)%nat → alphabet_status e !! i = Some m →
  ∃ cell, alphabet_body e i s = ([], Ok (s ++ cell)).
Proof.
  intros Hi Hm. unfold alphabet_body, w_lift, _int_to_letter, chr.
  change (ord "a") with 97.
  rewrite bool_decide_eq_true_2 by lia.
  rewrite (getitem_nat _ _ _ Hm). simpl. by eexists.
Qed.

Lemma alphabet_ok e n : ∀ start s,
  (start + n ≤ 26)%nat → length (alphabet_status e) = 26%nat →
  ∃ s', w_for_each (seq start n) (alphabet_body e) s = ([], Ok s').
Proof.
  induction n as [|n IH]; intros start s Hn Ha; simpl; [by eexists|].
  destruct (lookup_lt_is_Some_2 (alphabet_status e) start) as [m Hm]; [lia|].
  destruct (alphabet_body_ok e start s m) as [cell Hcell]; [lia|done|].
  erewrite w_bind_ok by exact Hcell.
  edestruct (IH (S start)) as [s' ->]; [lia|done|]. by eexists.
Qed.

Lemma render_frame_run e :
  reachable e →
  ∃ rows alphabet,
    _render_frame e
    = ([cps (String "010" "") ++ text_times (cps "=") 30;
        cps "Guess " ++ cps (pretty (current_guess_count e))
        ++ cps " of " ++ cps (pretty (max_guesses e));
        text_times (cps "-") 30]
       ++ rows
       ++ replicate (Z.to_nat (max_guesses e) - length (guess_history e))
            (cps "  " ++ text_times (cps "_ ") (word_length e))
       ++ [text_times (cps "-") 30; cps "Alphabet Status:"; alphabet;
           text_times (cps "=") 30],
       Ok tt) ∧
    length rows = length (guess_history e) ∧
    (length (guess_history e) ≤ Z.to_nat (max_guesses e))%nat.
Proof.
  intros Hr. pose proof (reachable_recorded e Hr)
    as (_ & Ha & H3 & H4 & H5 & H6 & _).
  pose proof (reachable_configured e Hr) as (_ & _ & Hc).
  destruct (guess_rows_ok e (length (guess_history e)) 0%nat)
    as (rows & Erows & Hrows); auto.
  { eapply Forall_impl; [exact H5|]. by intros w [_ ?]. }
  { eapply Forall_impl; [exact H6|]. by intros fb [? _]. }
  destruct (alphabet_ok e 26 0%nat [] (le_n _) Ha) as [alphabet Ealpha].
  unfold _render_frame, range. change (Z.to_nat 26) with 26%nat.
  rewrite Nat2Z.id, Erows, empty_rows_ok, Ealpha.
  rewrite length_seq.
  replace (Z.to_nat (max_guesses e - Z.of_nat (length (guess_history e))))
    with (Z.to_nat (max_guesses e) - length (guess_history e))%nat by lia.
  exists rows, alphabet. split; [|split; [exact Hrows|lia]].
  simpl. reflexivity.
Qed.

(** X12.  On every reachable state [_render_frame] runs to its end without
    raising, and what it prints is: the rule, the line "Guess n of m" and a
    dashed line; one row per recorded guess; the same empty row for each
    guess still open; and the four closing lines with the alphabet.  The
    board has [max_guesses] rows in all. *)
Theorem render_frame_returns e :
  reachable e →
  ∃ rows alphabet,
    _render_frame e
    = ([cps (String "010" "") ++ text_times (cps "=") 30;
        cps "Guess " ++ cps (pretty (current_guess_count e))
        ++ cps " of " ++ cps (pretty (max_guesses e));
        text_times (cps "-") 30]
       ++ rows
       ++ replicate (Z.to_nat (max_guesses e) - length (guess_history e))
            (cps "  " ++ text_times (cps "_ ") (word_length e))
       ++ [text_times (cps "-") 30; cps "Alphabet Status:"; alphabet;
           text_times (cps "=") 30],
       Ok tt) ∧
    length rows = length (guess_history e) ∧
    (length rows
     + (Z.to_nat (max_guesses e) - length (guess_history e))
     = Z.to_nat (max_guesses e))%nat.
Proof.
  intros Hr. destruct (render_frame_run e Hr) as (rows & alpha & E & H1 & H2).
  exists rows, alpha. split_and!; auto. lia.
Qed.

Lemma render_frame_returns_witness :
  ∃ rows alphabet,
    _render_frame demo_played
    = ([cps (String "010" "") ++ text_times (cps "=") 30;
        cps "Guess " ++ cps (pretty (current_guess_count demo_played))
        ++ cps " of " ++ cps (pretty (max_guesses demo_played));
        text_times (cps "-") 30]
       ++ rows
       ++ replicate (Z.to_nat (max_guesses demo_played)
                     - length (guess_history demo_played))
            (cps "  " ++ text_times (cps "_ ") (word_length demo_played))
       ++ [text_times (cps "-") 30; cps "Alphabet Status:"; alphabet;
           text_times (cps "=") 30],
       Ok tt) ∧
    length rows = length (guess_history demo_played) ∧
    (length rows
     + (Z.to_nat (max_guesses demo_played)
        - length (guess_history demo_played))
     = Z.to_nat (max_guesses demo_played))%nat.
Proof.
  apply (render_frame_returns demo_played).
  unfold demo_played. simpl. do 2 apply reach_step. apply reach_reset.
  apply (reach_init demo_words 5 6). vm_compute. reflexivity.
Defined.

(** ** The evaluation loop *)

Lemma render_frame_quiet_run e :
  reachable e → render_frame_quiet e = (e, Ok tt).
Proof.
  intros Hr. destruct (render_frame_run e Hr) as (rows & alpha & E & _).
  unfold render_frame_quiet. erewrite bind_ok by reflexivity.
  unfold id, lift. by rewrite E.
Qed.

(** On a reachable object the "human" mode returns what the plain calls
    return and leaves the same state. *)
Lemma step_human_step action e : reachable e → step_human action e = step action e.
Proof.
  intros Hr. unfold step_human. erewrite bind_ok by reflexivity. unfold id.
  case_bool_decide; [done|].
  pose proof (reach_step e action Hr) as Hr'.
  destruct (step action e) as [e1 [res|x]] eqn:E.
  - erewrite bind_ok by exact E.
    erewrite bind_ok by (by apply render_frame_quiet_run). done.
  - by erewrite bind_raise by exact E.
Qed.

Lemma reset_human_reset draw e : reachable e → reset_human draw e = reset draw e.
Proof.
  intros Hr. unfold reset_human.
  pose proof (reach_reset e draw Hr) as Hr'.
  destruct (reset draw e) as [e1 [res|x]] eqn:E.
  - erewrite bind_ok by exact E.
    erewrite bind_ok by (by apply render_frame_quiet_run). done.
  - by erewrite bind_raise by exact E.
Qed.

Lemma guess_loop_done predict fuel v :
  v_terminated v = true → guess_loop predict fuel v = mret (Some v).
Proof. intros H. destruct fuel; simpl; by rewrite H. Qed.

Lemma is_one_verdict guess e :
  is_one (verdict guess e).2 = bool_decide (guess = secret_word e).
Proof.
  unfold verdict. case_bool_decide; [reflexivity|].
  case_bool_decide; reflexivity.
Qed.

Lemma guess_loop_run predict n : ∀ fuel e v,
  (∀ obs, 0 ≤ predict obs < Z.of_nat (length (word_list e))) →
  reachable e → playing e →
  current_guess_count e < max_guesses e →
  Z.to_nat (max_guesses e - current_guess_count e) = n → (n ≤ fuel)%nat →
  v_terminated v = false → v_truncated v = false →
  secret_word e ∉ guess_history e →
  v_num_guesses v = current_guess_count e →
  ∃ e' v',
    guess_loop predict fuel v e = (e', Ok (Some v')) ∧
    reachable e' ∧ episode_state e' ∧
    word_list e' = word_list e ∧ max_guesses e' = max_guesses e ∧
    1 ≤ v_num_guesses v' ≤ max_guesses e ∧
    episode_outcome (v_tally v) e' v'.
Proof.
  induction n as [|n IH];
    intros fuel e v Hp Hr Hplay Hlt Hn Hfuel Hterm Htrunc Hsec Hnum; [lia|].
  destruct fuel as [|fuel]; [lia|].
  destruct Hplay as (He & HL & Hcount).
  destruct (Hp (v_obs v)) as [H0 Hhi].
  destruct (lookup_lt_is_Some_2 (word_list e) (Z.to_nat (predict (v_obs v))))
    as [w Hw]; [lia|].
  destruct (step_run _ w e He Hlt (getitem_in_range _ _ _ H0 Hw))
    as (e1 & E & _ & Hc1 & Hh1 & _ & Hm1).
  pose proof (reach_step e (predict (v_obs v)) Hr) as Hr1.
  pose proof (playing_step (predict (v_obs v)) e (conj He (conj HL Hcount)))
    as Hplay1.
  destruct (step_same_game (predict (v_obs v)) e) as (_ & _ & Hwl1 & Hs1 & _).
  rewrite E in Hr1, Hplay1, Hwl1, Hs1. simpl in Hr1, Hplay1, Hwl1, Hs1.
  simpl guess_loop. rewrite Hterm, Htrunc. cbn [negb andb].
  erewrite bind_ok by (rewrite step_human_step by done; exact E).
  destruct (decide (w = secret_word e)) as [->|Hne].
  - rewrite bool_decide_eq_true_2 by done. simpl orb.
    rewrite guess_loop_done by done.
    eexists e1, _. split; [reflexivity|]. simpl.
    split_and!; auto; try apply Hplay1; try lia.
    unfold episode_outcome. simpl. split_and!; auto. left.
    exists (guess_history e). rewrite Hs1. split_and!; auto; try lia.
  - rewrite (bool_decide_eq_false_2 (w = secret_word e)) by done.
    destruct (decide (current_guess_count e + 1 = max_guesses e)) as [Hmax|Hmax].
    + rewrite bool_decide_eq_true_2 by done. simpl orb.
      rewrite guess_loop_done by done.
      eexists e1, _. split; [reflexivity|]. simpl.
      split_and!; auto; try apply Hplay1; try lia.
      unfold episode_outcome. simpl. split_and!; auto. right.
      rewrite Hs1, Hh1, Hm1, length_app. simpl. split_and!; auto; [|lia].
      rewrite elem_of_app, list_elem_of_singleton. intros [?|?]; auto.
    + rewrite bool_decide_eq_false_2 by done. simpl orb.
      match goal with
      | |- context [guess_loop predict fuel ?v1 e1] =>
          destruct (IH fuel e1 v1)
            as (e' & v' & E' & Hr' & He' & Hwl' & Hm' & Hn' & Hout)
      end; try done; try lia.
      * intros obs. rewrite Hwl1. apply Hp.
      * rewrite Hs1, Hh1, elem_of_app, list_elem_of_singleton.
        intros [?|?]; auto.
      * simpl. lia.
      * rewrite E'. exists e', v'. split; [reflexivity|].
        split_and!; auto; try congruence; try lia.
Qed.

Lemma play_episode_run predict fuel draw t e :
  reachable e → alphabetic e →
  (∀ obs, 0 ≤ predict obs < Z.of_nat (length (word_list e))) →
  (Z.to_nat (max_guesses e) ≤ fuel)%nat → (1 ≤ fuel)%nat →
  ∃ e' v,
    play_episode predict fuel draw t e = (e', Ok (Some v)) ∧
    reachable e' ∧ episode_state e' ∧
    word_list e' = word_list e ∧ max_guesses e' = max_guesses e ∧
    1 ≤ v_num_guesses v ≤ Z.max 1 (max_guesses e) ∧
    episode_outcome t e' v.
Proof.
  intros Hr He Hp Hfuel Hfuel1.
  destruct (reachable_configured e Hr) as (Hne & HL & Hc).
  pose proof (reach_reset e draw Hr) as Hr0.
  pose proof (alphabetic_reset draw e Hr He) as He0.
  destruct (reset_run draw e Hne HL) as (w & Hw & E). cbv zeta in E.
  rewrite E in Hr0, He0. simpl in Hr0, He0.
  unfold play_episode.
  erewrite bind_ok by (rewrite reset_human_reset by done; exact E).
  set (e0 := mkEnv (word_length e) (max_guesses e) (word_list e)
               (rstrip_nul w) 0
               (replicate (Z.to_nat (word_length e)) EMPTY)
               (replicate 26 EMPTY) [] []) in *.
  assert (playing e0) as Hplay0 by (split; [done|split; [done|reflexivity]]).
  destruct (decide (0 < max_guesses e)) as [Hpos|Hzero].
  - match goal with
    | |- context [guess_loop predict fuel ?v0 e0] =>
        destruct (guess_loop_run predict (Z.to_nat (max_guesses e)) fuel e0 v0)
          as (e' & v' & E' & Hr' & He' & Hwl' & Hm' & Hn' & Hout)
    end; try done; try (simpl; lia).
    + simpl. apply not_elem_of_nil.
    + exists e', v'. split; [exact E'|]. simpl in *.
      split_and!; auto; lia.
  - assert (max_guesses e = 0) as Hmax0 by lia.
    destruct fuel as [|fuel]; [lia|]. simpl guess_loop. cbn [negb andb].
    erewrite bind_ok.
    2:{ rewrite step_human_step by done. apply step_exhausted. simpl. lia. }
    cbv beta iota. rewrite guess_loop_done by done.
    eexists e0, _. split; [reflexivity|]. simpl.
    split_and!; auto; try lia.
    unfold episode_outcome. simpl. split_and!; auto. right.
    split_and!; auto; try lia. apply not_elem_of_nil.
Qed.



Lemma evaluate_run predict fuel draws : ∀ t e,
  reachable e → alphabetic e →
  (∀ obs, 0 ≤ predict obs < Z.of_nat (length (word_list e))) →
  (Z.to_nat (max_guesses e) ≤ fuel)%nat → (1 ≤ fuel)%nat →
  ∃ e' t',
    evaluate predict fuel draws t e = (e', Ok (Some t')) ∧
    total_wins t ≤ total_wins t' ≤ total_wins t + Z.of_nat (length draws) ∧
    total_wins t' - total_wins t
    ≤ total_guesses_in_wins t' - total_guesses_in_wins t
    ≤ max_guesses e * (total_wins t' - total_wins t).
Proof.
  induction draws as [|draw draws IH]; intros t e Hr He Hp Hf Hf1.
  { exists e, t. split; [reflexivity|]. simpl. lia. }
  destruct (play_episode_run predict fuel draw t e Hr He Hp Hf Hf1)
    as (e1 & v & E & Hr1 & He1 & Hwl1 & Hm1 & Hn & _ & _ & Hout).
  simpl evaluate. erewrite bind_ok by exact E.
  destruct (IH (v_tally v) e1) as (e' & t' & E' & Hw & Hg); auto.
  { exact (proj1 He1). }
  { intros obs. rewrite Hwl1. apply Hp. }
  { by rewrite Hm1. }
  exists e', t'. split; [exact E'|]. rewrite Hm1 in Hg.
  pose proof (reachable_recorded e1 Hr1) as (_ & _ & _ & Hlen & _).
  pose proof (reachable_configured e1 Hr1) as (_ & _ & Hc).
  rewrite Hm1 in Hc.
  destruct Hout as [(h & Hh & _ & Hnum & Ht)|(_ & _ & Ht)].
  - rewrite Hh, length_app in Hlen. simpl in Hlen.
    rewrite Ht in Hw, Hg. simpl in Hw, Hg.
    rewrite length_cons. split; nia.
  - rewrite Ht in Hw, Hg. rewrite length_cons. split; nia.
Qed.

(** X14.  Take an object built by [__init__] from words made of letters,
    in the state any earlier calls of [step] and [reset] have left it, a
    model that answers every observation with an index into the word list,
    and a while loop allowed [max_guesses] turns (at least one).  Then the
    whole evaluation loop runs to its end without raising, and its tally
    stays within bounds: the wins are between 0 and the number of episodes,
    and the guesses summed over the wins are at least one and at most
    [max_guesses] per win, so the average over the wins, when there is a
    win, lies between 1 and [max_guesses]. *)
Theorem evaluate_tally custom_words L G e0 calls predict fuel draws :
  Forall (λ w, Forall is_letter (chars w)) custom_words →
  __init__ custom_words L G = Ok e0 →
  (∀ obs, 0 ≤ predict obs < Z.of_nat (length (word_list e0))) →
  (Z.to_nat G ≤ fuel)%nat → (1 ≤ fuel)%nat →
  ∃ e' t',
    evaluate predict fuel draws (mkTally 0 0) (run_calls calls e0)
    = (e', Ok (Some t')) ∧
    0 ≤ total_wins t' ≤ Z.of_nat (length draws) ∧
    total_wins t' ≤ total_guesses_in_wins t' ≤ G * total_wins t'.
Proof.
  intros Hws Hinit Hp Hf Hf1.
  pose proof (init_alphabetic _ _ _ _ Hws Hinit) as Ha.
  pose proof (reach_init _ _ _ _ Hinit) as Hr.
  assert (max_guesses e0 = G) as HG
    by (by apply init_Ok in Hinit as (_ & _ & _ & _ & ->)).
  destruct (run_calls_config calls e0) as (_ & Hm & Hwl).
  destruct (evaluate_run predict fuel draws (mkTally 0 0) (run_calls calls e0))
    as (e' & t' & E & Hw & Hg).
  - by apply run_calls_reachable.
  - by apply run_calls_alphabetic.
  - intros obs. rewrite Hwl. apply Hp.
  - by rewrite Hm, HG.
  - done.
  - exists e', t'. rewrite Hm, HG in Hg. simpl in *. split; [exact E|]. lia.
Qed.

Lemma evaluate_tally_witness :
  ∃ e' t',
    evaluate (λ _, 1) 6 [0; 1; 2]%nat (mkTally 0 0)
             (run_calls [Reset 3; Step 2; Step 7] demo_env)
    = (e', Ok (Some t')) ∧
    0 ≤ total_wins t' ≤ Z.of_nat (length [0; 1; 2]%nat) ∧
    total_wins t' ≤ total_guesses_in_wins t' ≤ 6 * total_wins t'.
Proof.
  apply (evaluate_tally demo_words 5 6 demo_env [Reset 3; Step 2; Step 7]
           (λ _, 1) 6 [0; 1; 2]%nat).
  - unfold demo_words, chars. cbn [list_ascii_of_string].
    repeat first [apply Forall_nil_2 | apply Forall_cons; split];
      vm_compute;
      first [left; split; discriminate|right; split; discriminate].
  - exact demo_init.
  - intros _. vm_compute. split; [discriminate|reflexivity].
  - vm_compute. lia.
  - lia.
Defined.

Example evaluate_demo :
  (evaluate (λ _, 1) 6 [0; 1; 2]%nat (mkTally 0 0) demo_env).2
  = Ok (Some (mkTally 1 1)).
Proof. vm_compute. reflexivity. Qed.
